(** * Chinese Poker: hand evaluator, play engine and sampled scorers

    A shallow embedding of the Go sources [eval.go] (card encoding, slow
    ranker, perfect-hash table, play engine) and [evaluator.go] (the 2-4
    score, sampled and rollout scorers, scorer files).

    Conventions.
    - Go integers ([int], [int16], [int32], [uint16]) are [Z]; 32-bit
      wrap-around is written out with [wrap32] where the source computes
      in [int32].
    - Go [float64] values are modelled by rationals [Q]: every finite
      [float64] is a rational.  Arithmetic on them is exact in the model
      (rounding, infinities and NaN are outside of it).
    - Fixed-size Go arrays and slices are lists; [map]s are [gmap]s.
    - [log.Fatalf], run-time panics and loops that do not end are made
      explicit through [option] or a result type. *)

From Stdlib Require Import ZArith QArith Qround Qabs Qpower Lia Lqa List Bool
  Ascii String.
From Stdlib Require Import Permutation.
From stdpp Require Import gmap list sorting.

Local Open Scope Z_scope.

(* ===================================================================== *)
(** * Part I: definitions                                                *)
(* ===================================================================== *)

(** ** Machine integers and loops *)

(** Wrap-around of a 32-bit (resp. 16-bit) signed integer: the value is
    shifted by [2^31], cut to its lowest 32 bits ([2^32 - 1] is the
    mask), and shifted back. *)
Definition wrap32 (z : Z) : Z := Z.land (z + 2147483648) 4294967295 - 2147483648.
Definition wrap16 (z : Z) : Z := Z.land (z + 32768) 65535 - 32768.

(** The number of values of an [int32]. *)
Definition int32_values : positive := 4294967296.

(** A Go [for { ... }] loop: [step] either returns from the loop ([inl])
    or gives the state of the next iteration ([inr]).  The loop is run
    for at most [p] iterations, leaving as soon as [step] returns;
    [inr] is a loop still running after [p] iterations. *)
Fixpoint loop_until {A B : Type} (step : A -> B + A) (p : positive) (a : A)
  : B + A :=
  match p with
  | xH => step a
  | xO p' =>
      match loop_until step p' a with
      | inl b => inl b
      | inr a' => loop_until step p' a'
      end
  | xI p' =>
      match step a with
      | inl b => inl b
      | inr a' =>
          match loop_until step p' a' with
          | inl b => inl b
          | inr a'' => loop_until step p' a''
          end
      end
  end.

Definition loop_result {A B : Type} (r : B + A) : option B :=
  match r with inl b => Some b | inr _ => None end.

(** ** Binary64 floating point

    Go's [float64] is the binary64 format of IEEE 754; every operation
    rounds its exact result to the nearest number of the format, ties to
    even.  Each operation is rounded on its own (no fused multiply-add). *)

(** [2^k] as a rational. *)
Definition pow2 (k : Z) : Q := (2 ^ k)%Q.

(** Rounding to the nearest integer, ties to even. *)
Definition rne (y : Q) : Z :=
  let f := Qfloor y in
  match (y - inject_Z f ?= 1 # 2)%Q with
  | Lt => f
  | Gt => f + 1
  | Eq => if Z.even f then f else f + 1
  end.

(** The exponent [e] of a non-zero rational: [2^e <= |x| < 2^(e+1)]. *)
Definition exponent (x : Q) : Z :=
  let a := Z.log2 (Z.abs (Qnum x)) - Z.log2 (Z.pos (Qden x)) in
  if Qle_bool (pow2 a) (Qabs x) then a else a - 1.

(** The exponent of the last place of the binary64 numbers around [x]:
    53 significant bits, and no exponent below -1022 (subnormals). *)
Definition ulp_exp (x : Q) : Z := Z.max (exponent x) (-1022) - 52.

(** Rounding to the nearest binary64 number, ties to even, before the
    overflow test. *)
Definition round64 (x : Q) : Q :=
  if Qeq_bool x 0 then 0%Q
  else Qred (inject_Z (rne (x / pow2 (ulp_exp x))) * pow2 (ulp_exp x)).

(** A [float64]: not-a-number, an infinity with its sign, or a finite
    number, held as a rational.  The sign of a zero and the payload of a
    NaN are not told apart: no operation modelled here depends on them. *)
Inductive float64 :=
| NaN
| Inf (neg : bool)
| Fin (q : Q).

Definition Qneg (x : Q) : bool := negb (Qle_bool 0 x).

(** The result of an operation whose exact value is [x]: rounded, and
    an infinity from [2^1024] on. *)
Definition f64_of_Q (x : Q) : float64 :=
  let r := round64 x in
  if Qle_bool (pow2 1024) (Qabs r) then Inf (Qneg r) else Fin r.

(** Negation, addition, subtraction and multiplication of IEEE 754. *)
Definition f64_opp (a : float64) : float64 :=
  match a with
  | NaN => NaN
  | Inf s => Inf (negb s)
  | Fin x => Fin (- x)
  end.

Definition f64_add (a b : float64) : float64 :=
  match a, b with
  | NaN, _ | _, NaN => NaN
  | Inf s, Inf t => if Bool.eqb s t then Inf s else NaN
  | Inf s, Fin _ | Fin _, Inf s => Inf s
  | Fin x, Fin y => f64_of_Q (x + y)
  end.

Definition f64_sub (a b : float64) : float64 := f64_add a (f64_opp b).

Definition f64_mul (a b : float64) : float64 :=
  match a, b with
  | NaN, _ | _, NaN => NaN
  | Inf s, Inf t => Inf (xorb s t)
  | Inf s, Fin y | Fin y, Inf s => if Qeq_bool y 0 then NaN else Inf (xorb s (Qneg y))
  | Fin x, Fin y => f64_of_Q (x * y)
  end.

Declare Scope f64_scope.
Delimit Scope f64_scope with f64.
Infix "+" := f64_add : f64_scope.
Infix "-" := f64_sub : f64_scope.
Infix "*" := f64_mul : f64_scope.

(** The comparisons [>=] and [<]: false when an operand is NaN. *)
Definition f64_ge (a b : float64) : bool :=
  match a, b with
  | NaN, _ | _, NaN => false
  | Inf s, Inf t => negb s || t
  | Inf s, Fin _ => negb s
  | Fin _, Inf t => t
  | Fin x, Fin y => Qle_bool y x
  end.

(** One rounding error of a result below 32 in magnitude is at most
    [round_err]. *)
Definition round_err : Q := pow2 (-49).

(** [r] is the computed value of the exact [x]: [x] is at most [X] in
    magnitude and [r] is within [n] rounding errors of it. *)
Definition approx64 (r x : Q) (X n : Z) : Prop :=
  (Qabs x <= inject_Z X)%Q /\ (Qabs (r - x) <= inject_Z n * round_err)%Q.

(** ** Cards ([eval.go]) *)

(** A [Card] is a [uint16]: the suit bit above bit 6, a prime for the
    rank in the lowest 6 bits.  A [Suit] is a [uint8], a [Rank] an [int]. *)
Abbreviation Card := Z.
Abbreviation Suit := Z.
Abbreviation Rank := Z.

Definition Club : Suit := 0.
Definition Diamond : Suit := 1.
Definition Heart : Suit := 2.
Definition Spade : Suit := 3.

Definition primes : list Z := [2; 3; 5; 7; 11; 13; 17; 23; 29; 31; 37; 41; 43].

(** [Card.Suit]; [None] is the [log.Fatalf] of an unknown suit. *)
Definition Card_Suit (c : Card) : option Suit :=
  let s := Z.shiftr c 6 in
  if s =? 1 then Some Club
  else if s =? 2 then Some Diamond
  else if s =? 4 then Some Heart
  else if s =? 8 then Some Spade
  else None.

Fixpoint Card_Rank_loop (r : Z) (ps : list Z) (pr : Rank) : Rank :=
  match ps with
  | [] => 0
  | p :: ps' => if p =? r then pr else Card_Rank_loop r ps' (pr + 1)
  end.

(** [Card.Rank]: the position of the card's prime, 0 if there is none. *)
Definition Card_Rank (c : Card) : Rank := Card_Rank_loop (Z.land c 63) primes 1.

(** [MakeCard]; [None] is the error return (and the index panic that a
    negative rank would raise). *)
Definition MakeCard (s : Suit) (r : Rank) : option Card :=
  if (s >? 3) || (r =? 0) || (r >? 13) then None
  else if r <? 0 then None
  else p ← primes !! Z.to_nat (r - 1); Some (Z.lor (Z.shiftl 1 (6 + s)) p).

(** The deck built by the first [init]: by suit, then by rank. *)
Definition all_suits : list Suit := [0; 1; 2; 3].
Definition all_ranks : list Rank := [1; 2; 3; 4; 5; 6; 7; 8; 9; 10; 11; 12; 13].

Definition Cards_init : option (list Card) :=
  mapM (fun sr : Suit * Rank => MakeCard (fst sr) (snd sr))
       (s ← all_suits; r ← all_ranks; [(s, r)]).

Definition Cards : list Card := default [] Cards_init.

(** ** The slow ranker ([eval.go]) *)

(** Only the [rank] field of the [eval] struct is modelled; the [desc]
    string is a description for reports. *)
Fixpoint evalScore_loop (n : nat) (r : Z) (c : list Z) : Z :=
  match n with
  | O => r
  | S n' =>
      match c with
      | [] => evalScore_loop n' (r * 16) []
      | x :: c' => evalScore_loop n' (r * 16 + x) c'
      end
  end.

(** [evalScore]: the hand type [v] followed by five base-16 digits. *)
Definition evalScore (v : Z) (c : list Z) : Z := evalScore_loop 5 v c.

(** Reading a Go map at an absent key gives the zero value. *)
Definition map_get (m : gmap Z Z) (k : Z) : Z := default 0 (m !! k).

Fixpoint find_loop (todo : nat) (i : Z) (k : Z) (r : gmap Z Z) (n : Z) : Z :=
  match todo with
  | O => 0
  | S todo' =>
      let rank := if i =? 0 then 1 else 14 - i in
      if map_get r rank =? k then
        if n =? 0 then 14 - i else find_loop todo' (i + 1) k r (n - 1)
      else find_loop todo' (i + 1) k r n
  end.

(** [find] picks the [n]th highest rank which occurs [k] times. *)
Definition find (k : Z) (r : gmap Z Z) (n : Z) : Z := find_loop 13 0 k r n.
Definition find1 (r : gmap Z Z) (n : Z) : Z := find 1 r n.
Definition find2 (r : gmap Z Z) (n : Z) : Z := find 2 r n.

Fixpoint isFlush_loop (s0 : Suit) (c : list Card) : option bool :=
  match c with
  | [] => Some true
  | ci :: c' =>
      s ← Card_Suit ci;
      if negb (s =? s0) then Some false else isFlush_loop s0 c'
  end.

Definition isFlush (c : list Card) : option bool :=
  if negb (length c =? 5)%nat then Some false
  else match c with
       | [] => Some true
       | c0 :: _ => s0 ← Card_Suit c0; isFlush_loop s0 c
       end.

(** Array cell update [a[i] = f(a[i])]; [None] is the index panic. *)
Definition update_at (a : list Z) (i : Z) (f : Z -> Z) : option (list Z) :=
  if i <? 0 then None
  else x ← a !! Z.to_nat i; Some (<[Z.to_nat i := f x]> a).

Definition read_at (a : list Z) (i : Z) : option Z :=
  if i <? 0 then None else a !! Z.to_nat i.

(** The state of the card loop of [evalSlow]. *)
Record slow_state := mkSlow {
  ss_ranks : gmap Z Z;
  ss_dupes : list Z;
  ss_str8s : list Z;
  ss_str8top : Z
}.

Definition slow_init : slow_state :=
  mkSlow ∅ (replicate 6 0) (replicate 13 0) 0.

(** The inner loop [for i := 0; i < 5; i++] on the straight detector. *)
Fixpoint str8_loop (todo : nat) (i : Z) (rk : Rank)
    (str8s : list Z) (str8top : Z) : option (list Z * Z) :=
  match todo with
  | O => Some (str8s, str8top)
  | S todo' =>
      let idx := Z.rem (rk + i) 13 in
      str8s' ← update_at str8s idx (fun x => Z.lor x (Z.shiftl 1 i));
      v ← read_at str8s' idx;
      let str8top' :=
        if (v =? 31) && ((idx <=? 1) || (idx >=? 5))
        then Z.rem (idx + 12) 13 + 1 else str8top in
      str8_loop todo' (i + 1) rk str8s' str8top'
  end.

(** The body of the card loop, for a card of rank [rk]. *)
Definition slow_rank (st : slow_state) (rk : Rank) : option slow_state :=
  let ranks := <[rk := map_get (ss_ranks st) rk + 1]> (ss_ranks st) in
  dupes1 ← update_at (ss_dupes st) (map_get ranks rk) Z.succ;
  dupes2 ← update_at dupes1 (map_get ranks rk - 1) Z.pred;
  '(str8s, str8top) ← str8_loop 5 0 rk (ss_str8s st) (ss_str8top st);
  Some (mkSlow ranks dupes2 str8s str8top).

Definition slow_card (st : slow_state) (ci : Card) : option slow_state :=
  slow_rank st (Card_Rank ci).

Fixpoint slow_cards (st : slow_state) (c : list Card) : option slow_state :=
  match c with
  | [] => Some st
  | ci :: c' => st' ← slow_card st ci; slow_cards st' c'
  end.

(** The cascade of tests of [evalSlow] after the card loop, for a hand
    of [len] cards. *)
Definition slow_result (flush : bool) (st : slow_state) (len : Z) (replace : bool)
  : option Z :=
  let ranks := ss_ranks st in
  let str8top := ss_str8top st in
  d1 ← read_at (ss_dupes st) 1;
  d2 ← read_at (ss_dupes st) 2;
  d3 ← read_at (ss_dupes st) 3;
  d4 ← read_at (ss_dupes st) 4;
  d5 ← read_at (ss_dupes st) 5;
  if negb flush && (str8top =? 0) && (d1 =? len) then
    Some (evalScore 0 [find1 ranks 0; find1 ranks 1; find1 ranks 2;
                       find1 ranks 3; find1 ranks 4])
  else if (d2 =? 1) && (d3 =? 0) then
    Some (evalScore 1 [find2 ranks 0; find1 ranks 0; find1 ranks 1; find1 ranks 2])
  else if d2 =? 2 then
    Some (evalScore 2 [find2 ranks 0; find2 ranks 1; find1 ranks 0])
  else if (d3 =? 1) && (d2 =? 0) then
    if replace then
      Some (evalScore 3 [find 3 ranks 0; find1 ranks 0; find1 ranks 1])
    else if len =? 5 then Some (evalScore 3 [find 3 ranks 0])
    else Some (evalScore 3 [find 3 ranks 0])
  else if negb (str8top =? 0) && negb flush then
    Some (evalScore 4 [Z.rem (str8top + 11) 13 + 2])
  else if flush && (str8top =? 0) then
    Some (evalScore 5 [find1 ranks 0; find1 ranks 1; find1 ranks 2;
                       find1 ranks 3; find1 ranks 4])
  else if (d2 =? 1) && (d3 =? 1) then
    if replace then Some (evalScore 6 [find 3 ranks 0; find2 ranks 0])
    else Some (evalScore 6 [find 3 ranks 0])
  else if d4 =? 1 then
    if replace then Some (evalScore 7 [find 4 ranks 0; find1 ranks 0])
    else Some (evalScore 7 [find 4 ranks 0])
  else if negb (str8top =? 0) && flush then
    Some (evalScore 8 [Z.rem (str8top + 11) 13 + 2])
  else if d5 =? 1 then Some (evalScore 9 [find 5 ranks 0])
  else None.

(** [evalSlow]: the rank of a 3- or 5-card hand.  [None] is the error
    return (or an abort inside the function). *)
Definition evalSlow (c : list Card) (replace : bool) : option Z :=
  flush ← isFlush c;
  st ← slow_cards slow_init c;
  slow_result flush st (Z.of_nat (length c)) replace.

(** ** The rank table ([eval.go]) *)

(** [ScoreMax] is the largest possible result from [Eval]. *)
Definition ScoreMax : Z := 6785.

Definition index_step (acc : Z * Z) (ci : Card) : Z * Z :=
  (wrap32 (fst acc * Z.land ci 63), Z.land (snd acc) ci).

(** [index]: the product of the cards' primes, negated for a flush. *)
Definition index (c : list Card) : Z :=
  let '(r, suits) := fold_left index_step c (1, 960) in
  if (length c =? 5)%nat && negb (Z.land suits 960 =? 0) then wrap32 (- r) else r.

(** [hash] on [int32]: an arithmetic shift right, a wrapping shift left. *)
Definition hash (k : Z) : Z := Z.lxor (Z.shiftr k 4) (wrap32 (Z.shiftl k 6)).

Definition evalMask : Z := 32767.

(** [evalTable], an array of 32768 [(key, val)] entries, all zero at the
    start: a finite map from the slots written so far. *)
Definition table : Type := gmap Z (Z * Z).

Definition entry (t : table) (slot : Z) : Z * Z := default (0, 0) (t !! slot).

(** The loop of [Eval], [Eval3] and [Eval5].  An [int32] takes [2^32]
    values, so a probe sequence which has not met the key after [2^32]
    steps never does: [None] is a lookup that does not end. *)
Definition probe_step (t : table) (key : Z) (k : Z) : Z + Z :=
  let e := entry t (Z.land k evalMask) in
  if fst e =? key then inl (snd e) else inr (hash k).

Definition probe (t : table) (key : Z) : option Z :=
  loop_result (loop_until (probe_step t key) int32_values key).

(** [nextIdx] advances the index vector in place; the result is the new
    vector and the returned flag ([None]: an index panic). *)
Fixpoint nextIdx_loop (todo : nat) (ix : list Z) (i : nat) (k dupes : Z)
  : option (list Z * bool) :=
  match todo with
  | O => None
  | S todo' =>
      x ← ix !! i;
      let ix1 := <[i := x + 1]> ix in
      if (S i =? length ix1)%nat then Some (ix1, x + 1 <? k)
      else
        y ← ix1 !! S i;
        if negb (x + 1 =? y + dupes) then Some (ix1, x + 1 <? k)
        else nextIdx_loop todo' (<[i := Z.of_nat i * (1 - dupes)]> ix1) (S i) k dupes
  end.

Definition nextIdx (ix : list Z) (k dupes : Z) : option (list Z * bool) :=
  nextIdx_loop (length ix) ix 0%nat k dupes.

(** The maps filled by the second [init]. *)
Record build_state := mkBuild {
  bs_scores : gmap Z Z;
  bs_uniqScores : gmap Z bool;
  bs_hand5 : gmap Z (list Card);
  bs_hand3 : gmap Z (list Card)
}.

Definition init_suits : list Suit := [Club; Diamond; Heart; Spade; Club].

(** The hand of one iteration: suits fixed by position, or all spades
    for the flush pass. *)
Definition init_hand (flush : Z) (indexes : list Z) : option (list Card) :=
  mapM (fun p : nat * Z =>
          suit ← (if flush =? 0 then init_suits !! fst p else Some Spade);
          MakeCard suit (snd p + 1))
       (imap (fun i ix => (i, ix)) indexes).

(** One iteration of the enumeration loop; [None] is a [log.Fatalf]. *)
Definition init_store (size : nat) (st : build_state) (hand : list Card)
    (idx ev : Z) : build_state :=
  mkBuild (<[idx := ev]> (bs_scores st)) (<[ev := true]> (bs_uniqScores st))
    (if (size =? 3)%nat then bs_hand5 st else <[ev := hand]> (bs_hand5 st))
    (if (size =? 3)%nat then <[ev := hand]> (bs_hand3 st) else bs_hand3 st).

Definition init_record (size : nat) (flush : Z) (st : build_state) (indexes : list Z)
  : option build_state :=
  hand ← init_hand flush indexes;
  let idx := index hand in
  ev ← evalSlow hand false;
  match bs_scores st !! idx with
  | Some oldEV =>
      if negb (oldEV =? ev) then None else Some (init_store size st hand idx ev)
  | None => Some (init_store size st hand idx ev)
  end.

(** The body of [for { ... if !nextIdx(...) { break } }]; an abort
    leaves the loop with [None]. *)
Definition init_enum_step (size : nat) (flush : Z) (s : build_state * list Z)
  : option build_state + build_state * list Z :=
  match init_record size flush (fst s) (snd s) with
  | None => inl None
  | Some st' =>
      match nextIdx (snd s) 13 (1 - flush) with
      | None => inl None
      | Some (ix', more) => if more then inr (st', ix') else inl (Some st')
      end
  end.

Definition init_enum (size : nat) (flush : Z) (st : build_state) (indexes : list Z)
  : option build_state :=
  mjoin (loop_result
           (loop_until (init_enum_step size flush) int32_values (st, indexes))).

(** The passes for one hand size: without flush, then (five cards only)
    with flush, where the indexes start at [0, 1, 2, 3, 4]. *)
Definition init_size (st : build_state) (size : nat) : option build_state :=
  let indexes := replicate size 0 in
  st0 ← init_enum size 0 st indexes;
  if (size / 5 =? 1)%nat
  then init_enum size 1 st0 (imap (fun i _ => Z.of_nat i) indexes)
  else Some st0.

(** A slice of ints with its positions, and as a finite map from the
    position to the element. *)
Fixpoint index_from (i : Z) (l : list Z) : list (Z * Z) :=
  match l with
  | [] => []
  | x :: l' => (i, x) :: index_from (i + 1) l'
  end.

Definition slice_of (l : list Z) : gmap Z Z := list_to_map (index_from 0 l).

(** [sort.Search]: binary search for the smallest index in [[0, n)] at
    which [f] holds, [n] if there is none.  The interval is halved by
    every iteration, so that 64 iterations are enough for an [int]. *)
Fixpoint Search_loop (todo : nat) (f : Z -> bool) (i j : Z) : Z :=
  match todo with
  | O => i
  | S todo' =>
      if i <? j then
        let h := Z.shiftr (i + j) 1 in
        if negb (f h) then Search_loop todo' f (h + 1) j
        else Search_loop todo' f i h
      else i
  end.

Definition Search (n : Z) (f : Z -> bool) : Z := Search_loop 64 f 0 n.

(** [sort.SearchInts] on a slice [a] of length [n]: the smallest index
    whose element is at least [x]. *)
Definition SearchInts (a : gmap Z Z) (n : Z) (x : Z) : Z :=
  Search n (fun i => map_get a i >=? x).

(** Insertion: probe from the key until a vacant slot (key 0) is met. *)
Definition vacant_step (t : table) (key : Z) : Z + Z :=
  if negb (fst (entry t (Z.land key evalMask)) =? 0) then inr (hash key)
  else inl key.

(** The tables built by the second [init]: the hash table and the two
    reverse tables from a rank to an example hand. *)
Record tables := mkTables {
  tb_evalTable : table;
  tb_rankTo5 : gmap Z (list Card);
  tb_rankTo3 : gmap Z (list Card)
}.

Definition init_insert (allScores : gmap Z Z) (n : Z) (st : build_state)
    (t : option tables) (k : Z) : option tables :=
  t ← t;
  key ← loop_result
          (loop_until (vacant_step (tb_evalTable t)) int32_values (wrap32 k));
  let score := map_get (bs_scores st) (wrap32 k) in
  let val := wrap16 (SearchInts allScores n score) in
  Some (mkTables (<[Z.land key evalMask := (wrap32 k, val)]> (tb_evalTable t))
          (<[val := default [] (bs_hand5 st !! score)]> (tb_rankTo5 t))
          (<[val := default [] (bs_hand3 st !! score)]> (tb_rankTo3 t))).

(** The enumeration of the hands of three and of five cards. *)
Definition init_scores : option build_state :=
  st3 ← init_size (mkBuild ∅ ∅ ∅ ∅) 3;
  init_size st3 5.

(** The distinct scores, sorted. *)
Definition allScores_of (st : build_state) : list Z :=
  merge_sort Z.le (fst <$> map_to_list (bs_uniqScores st)).

(** The second [init]: enumerate, sort, pack; [None] is a [log.Fatalf]
    (or a loop that does not end). *)
Definition init : option tables :=
  st5 ← init_scores;
  let allScores := allScores_of st5 in
  let keys := merge_sort Z.le (fst <$> map_to_list (bs_scores st5)) in
  let n := Z.of_nat (length allScores) in
  t ← fold_left (init_insert (slice_of allScores) n st5) keys
        (Some (mkTables ∅ ∅ ∅));
  if negb (ScoreMax =? n - 1) then None else Some t.

(** The tables after initialisation. *)
Definition init_tables : tables := default (mkTables ∅ ∅ ∅) init.
Definition evalTable : table := tb_evalTable init_tables.
Definition rankTo5 : gmap Z (list Card) := tb_rankTo5 init_tables.
Definition rankTo3 : gmap Z (list Card) := tb_rankTo3 init_tables.
Definition allScores : list Z := default [] (allScores_of <$> init_scores).

(** [EvalToHand5] returns an example 5-card hand with the given eval
    score, and whether the result is valid. *)
Definition EvalToHand5 (e : Z) : list Card * bool :=
  let h := default [] (rankTo5 !! e) in (h, negb (length h =? 0)%nat).

(** [EvalToHand3] returns an example 3-card hand with the given eval
    score, and whether the result is valid. *)
Definition EvalToHand3 (e : Z) : list Card * bool :=
  let h := default [] (rankTo3 !! e) in (h, negb (length h =? 0)%nat).

(** [Eval] takes a 3- or 5-card hand and returns its rank. *)
Definition Eval (c : list Card) : option Z := probe evalTable (index c).

(** ** Executable checks over rank tuples

    The key of a hand only depends on the ranks of its cards and on
    whether it is a flush; the functions below recompute it from ranks
    and suits, and the checks run the lookup over the rank tuples that
    [init] enumerates. *)

Definition prime_of (r : Rank) : Z := default 0 (primes !! Z.to_nat (r - 1)).

Definition card_of (s : Suit) (r : Rank) : Card :=
  Z.lor (Z.shiftl 1 (6 + s)) (prime_of r).

(** A valid (suit, rank) pair. *)
Definition valid_sr (sr : Suit * Rank) : Prop :=
  In (fst sr) all_suits /\ In (snd sr) all_ranks.

Definition card_of_sr (sr : Suit * Rank) : Card := card_of (fst sr) (snd sr).

Definition key_of_ranks (rs : list Rank) (acc : Z) : Z :=
  fold_left (fun a r => wrap32 (a * prime_of r)) rs acc.

Definition suits_of (ss : list Suit) (acc : Z) : Z :=
  fold_left (fun a s => Z.land a (Z.shiftl 1 (6 + s))) ss acc.

(** The values the [suits] accumulator of [index] can take. *)
Definition suit_accs : list Z := [960; 64; 128; 256; 512; 0].

Definition is_some {A : Type} (o : option A) : bool :=
  match o with Some _ => true | None => false end.

Fixpoint distinctb (l : list Z) : bool :=
  match l with
  | [] => true
  | x :: l' => negb (existsb (Z.eqb x) l') && distinctb l'
  end.

(** A key found in the table, with a value between 0 and [ScoreMax]. *)
Definition lookup_ok (key : Z) : Prop :=
  exists v, probe evalTable key = Some v /\ 0 <= v <= ScoreMax.

(** A key found in the table, whose value is the position of the score
    [s] in the sorted list of all scores. *)
Definition lookup_slow (key s : Z) : Prop :=
  exists v, probe evalTable key = Some v /\ 0 <= v <= ScoreMax
            /\ allScores !! Z.to_nat v = Some s.

(** The ranks from [r] up, and the rank tuples in non-decreasing order:
    the index vectors which [nextIdx] runs through in [init]. *)
Definition ranks_from (r : Rank) : list Rank :=
  List.filter (fun x => r <=? x) all_ranks.

Definition sorted3 : list (list Rank) :=
  r1 ← all_ranks; r2 ← ranks_from r1; r3 ← ranks_from r2; [[r1; r2; r3]].

Definition sorted5 : list (list Rank) :=
  r1 ← all_ranks; r2 ← ranks_from r1; r3 ← ranks_from r2;
  r4 ← ranks_from r3; r5 ← ranks_from r4; [[r1; r2; r3; r4; r5]].

(** The card loop of [evalSlow] on the ranks of the cards. *)
Fixpoint slow_ranks (st : slow_state) (rs : list Rank) : option slow_state :=
  match rs with
  | [] => Some st
  | r :: rs' => st' ← slow_rank st r; slow_ranks st' rs'
  end.

(** [evalSlow] from the ranks of the cards and the flush flag. *)
Definition evalSlow_ranks (rs : list Rank) (flush replace : bool) : option Z :=
  st ← slow_ranks slow_init rs;
  slow_result flush st (Z.of_nat (length rs)) replace.

(** The sorted scores by their positions. *)
Definition score_at : gmap Z Z := slice_of allScores.

Definition opt_eqb (a b : option Z) : bool :=
  match a, b with
  | Some x, Some y => x =? y
  | _, _ => false
  end.

(** The key is in the table, and its value is the position of the slow
    score [s] in the sorted list of all scores. *)
Definition agrees (key : Z) (s : option Z) : bool :=
  opt_eqb (v ← probe evalTable key; score_at !! v) s.

Fixpoint increasing (l : list Z) : bool :=
  match l with
  | x :: (y :: _) as l' => if x <? y then increasing l' else false
  | _ => true
  end.

(** The check of one rank tuple: without flush and, for five distinct
    ranks, with flush. *)
Definition hand_check (five : bool) (rs : list Rank) : bool :=
  if agrees (key_of_ranks rs 1) (evalSlow_ranks rs false false)
  then if five
       then if distinctb rs
            then agrees (wrap32 (- key_of_ranks rs 1)) (evalSlow_ranks rs true false)
            else true
       else true
  else false.

(** The check of an entry of [rankTo5] or [rankTo3]: a hand stored for
    the rank [e] has [n] cards of the deck and is ranked [e]. *)
Definition example_ok (n : nat) (e : Z) (h : list Card) : bool :=
  match h with
  | [] => true
  | _ =>
      if (length h =? n)%nat
      then if forallb (fun x => existsb (Z.eqb x) Cards) h
           then opt_eqb (Eval h) (Some e)
           else false
      else false
  end.

Definition examples_ok (n : nat) (m : gmap Z (list Card)) : bool :=
  forallb (fun eh : Z * list Card => example_ok n (fst eh) (snd eh)) (map_to_list m).

(** Every rank has an example hand of three or of five cards. *)
Definition ranks_covered : bool :=
  forallb (fun vs : Z * Z =>
             if snd (EvalToHand5 (fst vs)) then true else snd (EvalToHand3 (fst vs)))
          (index_from 0 allScores).

(** All the checks of the table, evaluated together. *)
Definition table_check : bool :=
  if is_some init
  then if Z.of_nat (length allScores) =? ScoreMax + 1
       then if increasing allScores
            then if forallb (hand_check false) sorted3
                 then if forallb (hand_check true) sorted5
                      then if examples_ok 5 rankTo5
                           then if examples_ok 3 rankTo3 then ranks_covered else false
                           else false
                      else false
                 else false
            else false
       else false
  else false.

(** The checks are compared with their bodies by unfolding them first. *)
Strategy expand [init_tables table_check score_at slice_of agrees hand_check example_ok examples_ok
                 ranks_covered lookup_slow].

(** ** The play engine ([eval.go], second part) *)

(** Array read at an index which the code keeps in range. *)
Definition at_ (a : list Z) (i : Z) : Z := default 0 (read_at a i).

Definition set_at (a : list Z) (i : Z) (x : Z) : option (list Z) :=
  update_at a i (fun _ => x).

(** [Eval5] is [Eval] on a [[5]Card], with the key computed inline. *)
Definition Eval5 (c : list Card) : option Z :=
  match c with
  | [c0; c1; c2; c3; c4] =>
      let key :=
        wrap32 (wrap32 (wrap32 (wrap32 (Z.land c0 63 * Z.land c1 63)
                                * Z.land c2 63) * Z.land c3 63) * Z.land c4 63) in
      let key :=
        if negb (Z.land (Z.land (Z.land (Z.land (Z.land c0 c1) c2) c3) c4) 960 =? 0)
        then wrap32 (- key) else key in
      probe evalTable key
  | _ => None
  end.

(** [Eval3] is [Eval] on a [[3]Card]. *)
Definition Eval3 (c : list Card) : option Z :=
  match c with
  | [c0; c1; c2] =>
      probe evalTable (wrap32 (wrap32 (Z.land c0 63 * Z.land c1 63) * Z.land c2 63))
  | _ => None
  end.

(** A [Hand] is a full Chinese poker hand: arrays of 3, 5 and 5 cards. *)
Record Hand := mkHand {
  Front : list Card;
  Middle : list Card;
  Back : list Card
}.

(** The zero value [Hand{}]. *)
Definition Hand_zero : Hand := mkHand (replicate 3 0) (replicate 5 0) (replicate 5 0).

(** A [HandEvaluator]: given the cards, a function which scores the
    ranks of front, middle and back. *)
Definition HandEvaluator : Type := list Card -> Z -> Z -> Z -> Q.

Definition evaluateProdHand (f m b : Z) : Q :=
  (inject_Z f * inject_Z m * inject_Z b / inject_Z (ScoreMax * ScoreMax * ScoreMax))%Q.

Definition MaxProdEvaluator : HandEvaluator := fun _ => evaluateProdHand.

(** [next3] advances three increasing indices in place; the result is
    the new array and the returned flag. *)
Definition next3 (ix : list Z) : list Z * bool :=
  let ix := <[0%nat := at_ ix 0 + 1]> ix in
  if negb (at_ ix 0 =? at_ ix 1) then (ix, true)
  else
    let ix := <[0%nat := 0]> ix in
    let ix := <[1%nat := at_ ix 1 + 1]> ix in
    if negb (at_ ix 1 =? at_ ix 2) then (ix, true)
    else
      let ix := <[1%nat := 1]> ix in
      let ix := <[2%nat := at_ ix 2 + 1]> ix in
      (ix, at_ ix 2 <? 13).

(** [next4] advances the indices 1..4 of a five-element array. *)
Definition next4 (ix : list Z) : list Z * bool :=
  let ix := <[1%nat := at_ ix 1 + 1]> ix in
  if negb (at_ ix 1 =? at_ ix 2) then (ix, true)
  else
    let ix := <[1%nat := 0]> ix in
    let ix := <[2%nat := at_ ix 2 + 1]> ix in
    if negb (at_ ix 2 =? at_ ix 3) then (ix, true)
    else
      let ix := <[2%nat := 1]> ix in
      let ix := <[3%nat := at_ ix 3 + 1]> ix in
      if negb (at_ ix 3 =? at_ ix 4) then (ix, true)
      else
        let ix := <[3%nat := 2]> ix in
        let ix := <[4%nat := at_ ix 4 + 1]> ix in
        (ix, at_ ix 4 <? 9).

(** [for next(&ix) { body }]: the iterator advances [ix] and tells
    whether there is a new value; [None] is a body that aborts (or a
    loop still running after [int32_values] rounds). *)
Definition for_next_step {S : Type} (next : list Z -> list Z * bool)
    (body : list Z -> S -> option S) (st : list Z * S)
  : option S + list Z * S :=
  let '(ix, more) := next (fst st) in
  if more then
    match body ix (snd st) with
    | Some s' => inr (ix, s')
    | None => inl None
    end
  else inl (Some (snd st)).

Definition for_next {S : Type} (next : list Z -> list Z * bool)
    (body : list Z -> S -> option S) (ix : list Z) (s : S) : option S :=
  mjoin (loop_result (loop_until (for_next_step next body) int32_values (ix, s))).

(** [EvalStats] are data from playing a single hand. *)
Record EvalStats := mkStats {
  Hands : Z;
  StrongFront : Z;
  BackEqualsMiddle : Z
}.

(** The state of the loop that deals the ten cards left to back and
    middle. *)
Record split_state := mkSplit {
  sp_f : Z;
  sp_b : Z;
  sp_back : list Card;
  sp_middle : list Card
}.

Definition split_card (c : list Card) (fIdx bIdx : list Z)
    (st : option split_state) (i : Z) : option split_state :=
  st ← st;
  let f := sp_f st in
  let b := sp_b st in
  if (f <? 3) && (at_ fIdx f =? i) then
    Some (mkSplit (f + 1) b (sp_back st) (sp_middle st))
  else if (b <? 5) && (i =? at_ bIdx b + f + 1) then
    ci ← read_at c i;
    back ← set_at (sp_back st) b ci;
    Some (mkSplit f (b + 1) back (sp_middle st))
  else
    ci ← read_at c i;
    middle ← set_at (sp_middle st) (i - f - b) ci;
    Some (mkSplit f b (sp_back st) middle).

(** The loop [for i := 0; i < 13; i++], from given [back] and [middle]
    arrays; the result is [(back, middle)]. *)
Definition split_from (back0 middle0 : list Card) (c : list Card)
    (fIdx bIdx : list Z) : option (list Card * list Card) :=
  st ← fold_left (split_card c fIdx bIdx) (seqZ 0 13)
        (Some (mkSplit 0 0 back0 middle0));
  Some (sp_back st, sp_middle st).

(** In [Play] both arrays start from their zero value. *)
Definition split_cards (c : list Card) (fIdx bIdx : list Z)
  : option (list Card * list Card) :=
  split_from (replicate 5 0) (replicate 5 0) c fIdx bIdx.

(** The variables of [Play]; [ps_scored] is not in the source: it logs
    the partitions that were scored with their score, latest first. *)
Record play_state := mkPlay {
  ps_maxima : list (Z * Z * Z);
  ps_best : Hand;
  ps_bestEV : Q;
  ps_stats : EvalStats;
  ps_scored : list (Hand * Q)
}.

Definition play_init : play_state :=
  mkPlay [] Hand_zero (-99999999 # 10) (mkStats 0 0 0) [].

Definition dominates (m : Z * Z * Z) (ef sem seb : Z) : bool :=
  (m.1.1 >=? ef) && (m.1.2 >=? sem) && (m.2 >=? seb).

Definition dominated_by (m : Z * Z * Z) (ef sem seb : Z) : bool :=
  (m.1.1 <=? ef) && (m.1.2 <=? sem) && (m.2 <=? seb).

(** The loop over [maxima]: the result is the [dominated] flag and the
    slice, from which triples below the new one were removed (the last
    element takes the place of a removed one). *)
Fixpoint dominance_loop (todo : nat) (i : nat) (ef sem seb : Z)
    (maxima : list (Z * Z * Z)) : bool * list (Z * Z * Z) :=
  match todo with
  | O => (false, maxima)
  | S todo' =>
      match maxima !! i with
      | None => (false, maxima)
      | Some m =>
          if dominates m ef sem seb then (true, maxima)
          else if dominated_by m ef sem seb then
            let maxima' :=
              match maxima !! (length maxima - 1)%nat with
              | Some last => take (length maxima - 1) (<[i := last]> maxima)
              | None => maxima
              end in
            dominance_loop todo' (S i) ef sem seb maxima'
          else dominance_loop todo' (S i) ef sem seb maxima
      end
  end.

(** The capacity of [maxima]. *)
Definition maxima_cap : Z := 128.

(** The end of the body of the inner loop, for a partition that passed
    the foul and tie checks: [hand] holds the lanes with the weaker
    five-card lane as middle, [(ef, sem, seb)] their ranks.  The three
    tests [em > eb] of the source are made once, by the caller.  With
    [filter = false] the dominance filter is left out. *)
Definition play_candidate (filter : bool) (evaluator : Z -> Z -> Z -> Q)
    (hand : Hand) (ef sem seb : Z) (st : play_state) : play_state :=
  let stats := ps_stats st in
  let '(dominated, maxima1) :=
    if filter
    then dominance_loop (length (ps_maxima st)) 0 ef sem seb (ps_maxima st)
    else (false, ps_maxima st) in
  if dominated then
    mkPlay maxima1 (ps_best st) (ps_bestEV st) stats (ps_scored st)
  else
    let maxima2 :=
      if filter && (Z.of_nat (length maxima1) <? maxima_cap)
      then maxima1 ++ [(ef, sem, seb)] else maxima1 in
    let ev := evaluator ef sem seb in
    let stats' := mkStats (Hands stats + 1) (StrongFront stats)
                          (BackEqualsMiddle stats) in
    if Qle_bool (ps_bestEV st) ev
    then mkPlay maxima2 hand ev stats' ((hand, ev) :: ps_scored st)
    else mkPlay maxima2 (ps_best st) (ps_bestEV st) stats'
           ((hand, ev) :: ps_scored st).

(** The body of the inner loop once the three lanes are ranked. *)
Definition play_ranked (filter : bool) (evaluator : Z -> Z -> Z -> Q)
    (front back middle : list Card) (ef eb em : Z) (st : play_state) : play_state :=
  let stats := ps_stats st in
  if (ef >=? em) || (ef >=? eb) then
    mkPlay (ps_maxima st) (ps_best st) (ps_bestEV st)
      (mkStats (Hands stats) (StrongFront stats + 1) (BackEqualsMiddle stats))
      (ps_scored st)
  else if em =? eb then
    mkPlay (ps_maxima st) (ps_best st) (ps_bestEV st)
      (mkStats (Hands stats) (StrongFront stats) (BackEqualsMiddle stats + 1))
      (ps_scored st)
  else if em >? eb then
    play_candidate filter evaluator (mkHand front back middle) ef eb em st
  else
    play_candidate filter evaluator (mkHand front middle back) ef em eb st.

(** The body of the inner loop of [Play] for one choice of the back
    indices. *)
Definition play_partition (filter : bool) (evaluator : Z -> Z -> Z -> Q)
    (c : list Card) (fIdx : list Z) (front : list Card) (ef : Z)
    (bIdx : list Z) (st : play_state) : option play_state :=
  '(back, middle) ← split_cards c fIdx bIdx;
  eb ← Eval5 back;
  em ← Eval5 middle;
  Some (play_ranked filter evaluator front back middle ef eb em st).

(** The body of the outer loop of [Play] for one choice of the front. *)
Definition play_front (filter : bool) (evaluator : Z -> Z -> Z -> Q)
    (c : list Card) (fIdx : list Z) (st : play_state) : option play_state :=
  c0 ← read_at c (at_ fIdx 0);
  c1 ← read_at c (at_ fIdx 1);
  c2 ← read_at c (at_ fIdx 2);
  let front := [c0; c1; c2] in
  ef ← Eval3 front;
  for_next next4 (play_partition filter evaluator c fIdx front ef)
    [-1; -1; 1; 2; 3] st.

(** [Play], with the dominance filter ([filter = true], the source) or
    without it; [None] is a run that panics or does not end. *)
Definition Play_gen (filter : bool) (c : list Card) (he : HandEvaluator)
  : option play_state :=
  for_next next3 (play_front filter (he c) c) [-1; 1; 2] play_init.

(** [Play] takes 13 cards and returns the hand for which the evaluator
    returns the largest value. *)
Definition Play (c : list Card) (he : HandEvaluator) : option (Hand * EvalStats) :=
  st ← Play_gen true c he; Some (ps_best st, ps_stats st).

(** [Play] with the dominance filter removed. *)
Definition Play_unfiltered (c : list Card) (he : HandEvaluator)
  : option (Hand * EvalStats) :=
  st ← Play_gen false c he; Some (ps_best st, ps_stats st).

(** The partitions scored by [Play], in the order of the enumeration. *)
Definition Play_scored (c : list Card) (he : HandEvaluator) : option (list (Hand * Q)) :=
  st ← Play_gen true c he; Some (rev (ps_scored st)).

(** ** Enumerations and legal hands

    Definitions used to state and prove the properties of [Play]. *)

(** [loop_until] with a unary bound. *)
Fixpoint iterate {A B : Type} (step : A -> B + A) (n : nat) (a : A) : B + A :=
  match n with
  | O => inr a
  | S n' =>
      match step a with
      | inl b => inl b
      | inr a' => iterate step n' a'
      end
  end.

(** The values an iterator goes through before it returns [false]
    ([None]: it has not done so after [n] calls). *)
Fixpoint enum_next (next : list Z -> list Z * bool) (n : nat) (ix : list Z)
  : option (list (list Z)) :=
  match n with
  | O => None
  | S n' =>
      let '(ix', more) := next ix in
      if more then cons ix' <$> enum_next next n' ix' else Some []
  end.

(** The front index triples and the back index vectors of [Play]. *)
Definition fronts : list (list Z) := default [] (enum_next next3 300 [-1; 1; 2]).
Definition backs : list (list Z) := default [] (enum_next next4 200 [-1; -1; 1; 2; 3]).

(** A loop body applied to a state that may already have aborted. *)
Definition and_then {I S : Type} (body : I -> S -> option S)
    (acc : option S) (i : I) : option S :=
  acc ≫= body i.

(** [Play] as two nested folds over the index enumerations. *)
Definition play_front_fold (filter : bool) (evaluator : Z -> Z -> Z -> Q)
    (c : list Card) (fIdx : list Z) (st : play_state) : option play_state :=
  c0 ← read_at c (at_ fIdx 0);
  c1 ← read_at c (at_ fIdx 1);
  c2 ← read_at c (at_ fIdx 2);
  ef ← Eval3 [c0; c1; c2];
  fold_left (and_then (play_partition filter evaluator c fIdx [c0; c1; c2] ef))
    backs (Some st).

(** The positions of a 13-card deal. *)
Definition idx13 : list Z := seqZ 0 13.

(** The split computed on positions instead of cards, from arrays
    filled with -1: the three lanes hold each position once. *)
Definition partition_ok (fIdx bIdx : list Z) : bool :=
  match split_from (replicate 5 (-1)) (replicate 5 (-1)) idx13 fIdx bIdx with
  | Some (back, middle) =>
      bool_decide (merge_sort Z.le
                     ([at_ fIdx 0; at_ fIdx 1; at_ fIdx 2] ++ middle ++ back) = idx13)
      && (length back =? 5)%nat && (length middle =? 5)%nat
  | None => false
  end.

(** A function on cards applied to the arrays of a split. *)
Definition split_state_map (g : Z -> Z) (st : split_state) : split_state :=
  mkSplit (sp_f st) (sp_b st) (g <$> sp_back st) (g <$> sp_middle st).

(** The card at a position of the deal [c]; position -1 stands for the
    zero card of a fresh array. *)
Definition card_at (c : list Card) (i : Z) : Card :=
  if i =? -1 then 0 else at_ c i.

(** The three lane ranks of a hand. *)
Definition hand_ranks (h : Hand) : option (Z * Z * Z) :=
  ef ← Eval3 (Front h);
  em ← Eval5 (Middle h);
  eb ← Eval5 (Back h);
  Some (ef, em, eb).

(** A hand made of exactly the cards of [c] whose lanes are in order. *)
Definition lanes_of (c : list Card) (h : Hand) : Prop :=
  Permutation (Front h ++ Middle h ++ Back h) c
  /\ length (Front h) = 3%nat /\ length (Middle h) = 5%nat
  /\ length (Back h) = 5%nat.

Definition foul_free (h : Hand) : Prop :=
  exists ef em eb,
    hand_ranks h = Some (ef, em, eb)
    /\ ef < em /\ ef < eb /\ em <> eb.

(** The value the evaluator gives to a hand. *)
Definition hand_value (evaluator : Z -> Z -> Z -> Q) (h : Hand) : option Q :=
  '(ef, em, eb) ← hand_ranks h; Some (evaluator ef em eb).

(** The initial value of [bestEV], -9999999.9. *)
Definition bestEV_init : Q := -99999999 # 10.

(** The selection made by [Play] over the scored partitions, in the
    order of the enumeration. *)
Definition select_step (acc : Hand * Q) (x : Hand * Q) : Hand * Q :=
  if Qle_bool (snd acc) (snd x) then x else acc.

Definition select (l : list (Hand * Q)) : Hand * Q :=
  fold_left select_step l (Hand_zero, bestEV_init).

(** The first partition of a list that attains its maximal score. *)
Fixpoint first_max (l : list (Hand * Q)) : option (Hand * Q) :=
  match l with
  | [] => None
  | x :: l' =>
      match first_max l' with
      | None => Some x
      | Some y => if Qle_bool (snd y) (snd x) then Some x else Some y
      end
  end.

(** A scorer which is monotone non-decreasing in each lane rank, over
    the ranks [0..ScoreMax]. *)
Definition rank_range (r : Z) : Prop := 0 <= r <= ScoreMax.

Definition monotone_scorer (evaluator : Z -> Z -> Z -> Q) : Prop :=
  forall f m b f' m' b',
    rank_range f -> rank_range m -> rank_range b ->
    rank_range f' -> rank_range m' -> rank_range b' ->
    f <= f' -> m <= m' -> b <= b' ->
    (evaluator f m b <= evaluator f' m' b')%Q.

(** A scored partition: a hand made of the cards of [c], its lanes in
    strict order, scored by the evaluator on its ranks. *)
Definition scored_ok (evaluator : Z -> Z -> Z -> Q) (c : list Card)
    (x : Hand * Q) : Prop :=
  lanes_of c (fst x)
  /\ exists ef em eb,
       hand_ranks (fst x) = Some (ef, em, eb)
       /\ rank_range ef /\ rank_range em /\ rank_range eb
       /\ ef < em /\ ef < eb /\ em < eb
       /\ snd x = evaluator ef em eb.

(** The invariant of the loops of [Play]. *)
Definition play_inv (evaluator : Z -> Z -> Z -> Q) (c : list Card)
    (st : play_state) : Prop :=
  (ps_best st, ps_bestEV st) = select (rev (ps_scored st))
  /\ Forall (scored_ok evaluator c) (ps_scored st)
  /\ Hands (ps_stats st) = Z.of_nat (length (ps_scored st))
  /\ Forall (fun m : Z * Z * Z =>
               exists x, In x (ps_scored st)
                         /\ hand_ranks (fst x) = Some m) (ps_maxima st).

(** Two runs over the same partitions, with and without the filter:
    what the filter scored was scored without it, and what was scored
    without it is matched by the filter with a score at least as high. *)
Definition play_rel (stf stu : play_state) : Prop :=
  (forall x, In x (ps_scored stf) -> In x (ps_scored stu))
  /\ (forall x, In x (ps_scored stu) ->
        exists y, In y (ps_scored stf) /\ (snd x <= snd y)%Q).

(** The three lanes of a partition of [c], with their ranks. *)
Definition ranked_lanes (c front back middle : list Card) (ef eb em : Z) : Prop :=
  Permutation (front ++ middle ++ back) c
  /\ length front = 3%nat /\ length back = 5%nat /\ length middle = 5%nat
  /\ Eval3 front = Some ef /\ Eval5 back = Some eb /\ Eval5 middle = Some em
  /\ rank_range ef /\ rank_range eb /\ rank_range em.

(** A step of [Play] that scores nothing and keeps the selection. *)
Definition same_selection (st st' : play_state) : Prop :=
  ps_scored st' = ps_scored st
  /\ ps_best st' = ps_best st /\ ps_bestEV st' = ps_bestEV st
  /\ ps_maxima st' = ps_maxima st
  /\ Hands (ps_stats st') = Hands (ps_stats st).

(** The invariants of the two runs and the relation between them. *)
Definition play_both (evaluator : Z -> Z -> Z -> Q) (c : list Card)
    (stf stu : play_state) : Prop :=
  play_inv evaluator c stf /\ play_inv evaluator c stu /\ play_rel stf stu.

(** A deal: 13 distinct cards of the deck. *)
Definition deal (c : list Card) : Prop :=
  NoDup c /\ (forall x, In x c -> In x Cards) /\ length c = 13%nat.

(** The executable form of [deal]. *)
Definition dealb (c : list Card) : bool :=
  distinctb c && forallb (fun x => existsb (Z.eqb x) Cards) c
  && (length c =? 13)%nat.

(** The deal of the play scenario: four aces, four kings, four queens
    and the jack of hearts. *)
Definition deal_AKQJ : list Card :=
  [card_of Heart 1; card_of Diamond 1; card_of Club 1; card_of Spade 1;
   card_of Heart 13; card_of Diamond 13; card_of Club 13; card_of Spade 13;
   card_of Heart 12; card_of Diamond 12; card_of Club 12; card_of Spade 12;
   card_of Heart 11].

(** ** Hands of the deck *)

(** A hand of three or five distinct cards of the deck. *)
Definition deck_hand (c : list Card) : Prop :=
  NoDup c /\ (forall x, In x c -> In x Cards)
  /\ (length c = 3 \/ length c = 5)%nat.

Definition deck_handb (c : list Card) : bool :=
  distinctb c && forallb (fun x => existsb (Z.eqb x) Cards) c
  && ((length c =? 3)%nat || (length c =? 5)%nat).

(** ** The 2-4 score ([evaluator.go], [b2i], [cmp]) *)

Definition b2i (b : bool) : Z := if b then 1 else 0.

(** [cmp] takes interleaved ranks of three hands and returns the score of
    the first player. *)
Definition cmp (a0 b0 a1 b1 a2 b2 : Z) : Z :=
  let wins := b2i (a0 >? b0) + b2i (a1 >? b1) + b2i (a2 >? b2) in
  let losses := b2i (b0 >? a0) + b2i (b1 >? a1) + b2i (b2 >? a2) in
  let bonus := b2i (wins >? losses) - b2i (losses >? wins) in
  wins - losses + bonus.

(** ** Sampled and rollout evaluators ([evaluator.go]) *)

(** A Go value of type [[3][]float64]: an array of exactly three slices.
    [len] of such an array is the constant 3, whatever the slices hold. *)
Definition wins3 : Type := (list float64 * list float64 * list float64)%type.

Definition len_wins3 (w : wins3) : Z := 3.

Definition wins_at (w : wins3) (i : Z) : list float64 :=
  match w with
  | (w0, w1, w2) => if i =? 0 then w0 else if i =? 1 then w1 else w2
  end.

(** The zero value of [[3][]float64]: three nil slices. *)
Definition wins3_zero : wins3 := ([], [], []).

Record SampledEvaluator := mkSampled { se_wins : wins3 }.

(** The opponent of a rollout is a [HandEvaluator]; only the function it
    provides matters to the code modelled here. *)
Record RolloutEvaluator := mkRollout {
  PreRollout : bool;
  Separable : bool;
  Opponent : list Z -> Z -> Z -> Z -> Q;
  N : Z;
  played : list (Z * Z * Z);
  re_wins : wins3
}.

(** A rollout evaluator that was never initialised: its win arrays are
    the zero value, three nil slices. *)
Definition uninitialised (re : RolloutEvaluator) : Prop :=
  re_wins re = wins3_zero.

(** Go errors raised by the constructors. *)
Inductive ctor_error :=
| ErrNotSeparable
| ErrNotPreRolledOut
| ErrNotPrepared.

(** [NewSampledEvaluatorFromRollout]: the three guards in source order,
    then a copy of the three slices ([append([]float64{}, s...)]). *)
Definition NewSampledEvaluatorFromRollout (re : RolloutEvaluator)
  : SampledEvaluator + ctor_error :=
  if negb (Separable re) then inr ErrNotSeparable
  else if negb (PreRollout re) then inr ErrNotPreRolledOut
  else if len_wins3 (re_wins re) =? 0 then inr ErrNotPrepared
  else inl (mkSampled ([] ++ wins_at (re_wins re) 0,
                       [] ++ wins_at (re_wins re) 1,
                       [] ++ wins_at (re_wins re) 2)).

(** The scoring expression of [evaluateHand], on the three looked-up
    probabilities: [float64] operations in the order of the source. *)
Definition score_expr (pf pm pb : float64) : float64 :=
  (let qf := Fin 1 - pf in
   let qm := Fin 1 - pm in
   let qb := Fin 1 - pb in
   let pbon := pf * pm + pf * pb + pm * pb - Fin 2 * pf * pm * pb in
   let qbon := qf * qm + qf * qb + qm * qb - Fin 2 * qf * qm * qb in
   pf + pm + pb - qf - qm - qb + pbon - qbon)%f64.

(** Slice indexing [s[i]]; [None] is the run-time panic of an index out
    of range. *)
Definition index_f64 (s : list float64) (i : Z) : option float64 :=
  if i <? 0 then None else s !! Z.to_nat i.

(** [evaluateHand]: expected value of a hand with the given lane ranks. *)
Definition evaluateHand (se : SampledEvaluator) (f m b : Z) : option float64 :=
  pf ← index_f64 (wins_at (se_wins se) 0) f;
  pm ← index_f64 (wins_at (se_wins se) 1) m;
  pb ← index_f64 (wins_at (se_wins se) 2) b;
  Some (score_expr pf pm pb).

(** Three independent Bernoulli lanes: lane [l] is won with probability
    [p] and lost with probability [1 - p]. *)
Definition bernoulli (p : Q) (won : bool) : Q := if won then p else (1 - p)%Q.

(** The 2-4 score of an outcome: a won lane is a lane where the first
    player's rank is above the second's, a lost lane the converse. *)
Definition cmp_outcome (wf wm wb : bool) : Z :=
  cmp (b2i wf) (b2i (negb wf)) (b2i wm) (b2i (negb wm)) (b2i wb) (b2i (negb wb)).

Definition outcomes : list (bool * bool * bool) :=
  [(true, true, true); (true, true, false); (true, false, true);
   (true, false, false); (false, true, true); (false, true, false);
   (false, false, true); (false, false, false)].

Definition Qsum (l : list Q) : Q := fold_right Qplus 0%Q l.

(** Expectation of [cmp] over the eight outcomes. *)
Definition expected_cmp (pf pm pb : Q) : Q :=
  Qsum (List.map (fun o : bool * bool * bool =>
          match o with
          | (wf, wm, wb) =>
              (bernoulli pf wf * bernoulli pm wm * bernoulli pb wb
               * inject_Z (cmp_outcome wf wm wb))%Q
          end) outcomes).

(** The expression of [evaluateHand] over the rationals, without any
    rounding. *)
Definition score_exact (pf pm pb : Q) : Q :=
  (let qf := 1 - pf in
   let qm := 1 - pm in
   let qb := 1 - pb in
   let pbon := pf * pm + pf * pb + pm * pb - 2 * pf * pm * pb in
   let qbon := qf * qm + qf * qb + qm * qb - 2 * qf * qm * qb in
   pf + pm + pb - qf - qm - qb + pbon - qbon)%Q.

(** The [float64] nearest to 0.1: the probability which [rollout] stores
    for one sample out of ten. *)
Definition tenth : Q := 3602879701896397 # 36028797018963968.

(* ===================================================================== *)
(** * Part II: theorems                                                  *)
(* ===================================================================== *)

(** ** The rank table and [Eval] *)

Lemma loop_until_inl {A B : Type} (step : A -> B + A) (p : positive) (a : A) (b : B) :
  loop_until step p a = inl b -> exists a', step a' = inl b.
Proof.
  revert a. induction p as [p IH | p IH |]; intros a; simpl.
  - destruct (step a) as [b' | a'] eqn:E.
    + intros [= <-]. eauto.
    + destruct (loop_until step p a') as [b' | a''] eqn:E'.
      * intros [= <-]. eauto.
      * apply IH.
  - destruct (loop_until step p a) as [b' | a'] eqn:E.
    + intros [= <-]. eauto.
    + apply IH.
  - eauto.
Qed.

(** A lookup that returns has met an entry with the key looked for. *)
Lemma probe_Some (t : table) (key v : Z) :
  probe t key = Some v -> exists slot, entry t slot = (key, v).
Proof.
  unfold probe. destruct (loop_until _ _ _) as [b | a] eqn:E; [| discriminate].
  intros [= ->]. apply loop_until_inl in E as [k Hk].
  unfold probe_step in Hk. exists (Z.land k evalMask).
  destruct (entry t (Z.land k evalMask)) as [ek ev]; simpl in *.
  destruct (Z.eqb_spec ek key); [| discriminate].
  injection Hk as ->. congruence.
Qed.

Lemma check_suits_true :
  forallb (fun s1 => forallb (fun s2 => forallb (fun s3 =>
  forallb (fun s4 => forallb (fun s5 =>
    Bool.eqb (negb (Z.land (suits_of [s1; s2; s3; s4; s5] 960) 960 =? 0))
             ((s1 =? s2) && (s1 =? s3) && (s1 =? s4) && (s1 =? s5)))
  all_suits) all_suits) all_suits) all_suits) all_suits = true.
Proof. vm_compute. reflexivity. Qed.

Lemma Cards_eq : Cards = s ← all_suits; r ← all_ranks; [card_of s r].
Proof. vm_compute. reflexivity. Qed.

Lemma In_Cards (x : Card) :
  In x Cards -> exists s r, In s all_suits /\ In r all_ranks /\ x = card_of s r.
Proof.
  rewrite Cards_eq. intros H. apply list_elem_of_In in H.
  apply list_elem_of_bind in H as (s & Hx & Hs).
  apply list_elem_of_bind in Hx as (r & Hx & Hr).
  apply list_elem_of_singleton in Hx.
  exists s, r. rewrite <- !list_elem_of_In. auto.
Qed.

Lemma card_of_land63 (s : Suit) (r : Rank) :
  In s all_suits -> In r all_ranks -> Z.land (card_of s r) 63 = prime_of r.
Proof.
  intros Hs Hr. simpl in Hs, Hr.
  repeat (destruct Hs as [<- | Hs]; [| try contradiction]);
  repeat (destruct Hr as [<- | Hr]; [| try contradiction]); reflexivity.
Qed.

Lemma card_of_suit_acc (a : Z) (s : Suit) (r : Rank) :
  In a suit_accs -> In s all_suits -> In r all_ranks ->
  Z.land a (card_of s r) = Z.land a (Z.shiftl 1 (6 + s)).
Proof.
  intros Ha Hs Hr. simpl in Ha, Hs, Hr.
  repeat (destruct Ha as [<- | Ha]; [| try contradiction]);
  repeat (destruct Hs as [<- | Hs]; [| try contradiction]);
  repeat (destruct Hr as [<- | Hr]; [| try contradiction]); reflexivity.
Qed.

Lemma suit_acc_closed (a : Z) (s : Suit) :
  In a suit_accs -> In s all_suits -> In (Z.land a (Z.shiftl 1 (6 + s))) suit_accs.
Proof.
  intros Ha Hs. simpl in Ha, Hs.
  repeat (destruct Ha as [<- | Ha]; [| try contradiction]);
  repeat (destruct Hs as [<- | Hs]; [| try contradiction]);
  vm_compute; tauto.
Qed.

Lemma deck_cards_sr (c : list Card) :
  (forall x, In x c -> In x Cards) ->
  exists srs, c = List.map card_of_sr srs /\ Forall valid_sr srs.
Proof.
  induction c as [| x c IH]; intros H.
  - exists []. split; [reflexivity | constructor].
  - destruct IH as (srs & -> & Hv); [intros y Hy; apply H; right; exact Hy |].
    destruct (In_Cards x) as (s & r & Hs & Hr & ->); [apply H; left; reflexivity |].
    exists ((s, r) :: srs). split; [reflexivity |].
    constructor; [split; assumption | assumption].
Qed.

(** The loop of [index] on deck cards, from ranks and suits. *)
Lemma fold_index_step (srs : list (Suit * Rank)) (accr accs : Z) :
  Forall valid_sr srs -> In accs suit_accs ->
  fold_left index_step (List.map card_of_sr srs) (accr, accs)
  = (key_of_ranks (List.map snd srs) accr, suits_of (List.map fst srs) accs).
Proof.
  intros Hv. revert accr accs.
  induction Hv as [| [s r] srs [Hs Hr] Hv IH]; intros accr accs Ha; [reflexivity |].
  simpl in Hs, Hr. cbn [List.map fold_left key_of_ranks suits_of].
  unfold index_step at 2. cbn [fst snd]. unfold card_of_sr at 2 3. cbn [fst snd].
  rewrite card_of_land63, card_of_suit_acc by assumption.
  apply IH. apply suit_acc_closed; assumption.
Qed.

Lemma index_deck (srs : list (Suit * Rank)) :
  Forall valid_sr srs ->
  index (List.map card_of_sr srs)
  = let r := key_of_ranks (List.map snd srs) 1 in
    if (length srs =? 5)%nat
       && negb (Z.land (suits_of (List.map fst srs) 960) 960 =? 0)
    then wrap32 (- r) else r.
Proof.
  intros Hv. unfold index. rewrite fold_index_step by (simpl; auto).
  rewrite length_map. reflexivity.
Qed.

Lemma distinctb_NoDup (l : list Z) : NoDup l -> distinctb l = true.
Proof.
  induction 1 as [| x l Hx Hl IH]; [reflexivity |].
  simpl. rewrite IH, andb_true_r. apply negb_true_iff.
  destruct (existsb (Z.eqb x) l) eqn:E; [| reflexivity].
  apply existsb_exists in E as (y & Hy & Heq). apply Z.eqb_eq in Heq. subst y.
  exfalso. apply Hx. apply list_elem_of_In. exact Hy.
Qed.

Lemma distinctb_true (l : list Z) : distinctb l = true -> NoDup l.
Proof.
  induction l as [| x l IH]; simpl; intros H; [constructor |].
  apply andb_true_iff in H as [Hx Hl]. constructor; [| apply IH, Hl].
  intros Hin. apply list_elem_of_In in Hin. apply negb_true_iff in Hx.
  assert (existsb (Z.eqb x) l = true); [| congruence].
  apply existsb_exists. exists x. split; [exact Hin | apply Z.eqb_refl].
Qed.

Ltac use_forallb H x :=
  let H' := fresh in
  pose proof (proj1 (forallb_forall _ _) H x) as H'; clear H;
  rename H' into H; cbv beta in H.



(** The checks of the table, by evaluation: initialisation runs to its
    end (no [log.Fatalf], every insertion finds a vacant slot, the number
    of distinct scores is [ScoreMax + 1]), the scores are sorted, and
    every non-decreasing rank tuple is found with the position of its
    slow score. *)
Lemma table_checked : table_check = true.
Proof. vm_compute. reflexivity. Qed.

Lemma if_chain8 (b1 b2 b3 b4 b5 b6 b7 b8 : bool) :
  (if b1 then if b2 then if b3 then if b4 then if b5 then if b6
   then if b7 then b8 else false else false else false else false
   else false else false else false) = true ->
  b1 = true /\ b2 = true /\ b3 = true /\ b4 = true /\ b5 = true
  /\ b6 = true /\ b7 = true /\ b8 = true.
Proof.
  destruct b1, b2, b3, b4, b5, b6, b7, b8; try discriminate 1; tauto.
Qed.

Lemma table_check_parts :
  is_some init = true
  /\ (Z.of_nat (length allScores) =? ScoreMax + 1) = true
  /\ increasing allScores = true
  /\ forallb (hand_check false) sorted3 = true
  /\ forallb (hand_check true) sorted5 = true
  /\ examples_ok 5 rankTo5 = true
  /\ examples_ok 3 rankTo3 = true
  /\ ranks_covered = true.
Proof.
  exact (if_chain8 (is_some init) (Z.of_nat (length allScores) =? ScoreMax + 1)
           (increasing allScores) (forallb (hand_check false) sorted3)
           (forallb (hand_check true) sorted5) (examples_ok 5 rankTo5)
           (examples_ok 3 rankTo3) ranks_covered table_checked).
Qed.

Lemma init_runs : is_some init = true.
Proof. exact (proj1 table_check_parts). Qed.

Lemma init_succeeds : init = Some init_tables.
Proof.
  unfold init_tables. pose proof init_runs as H.
  destruct init as [t |]; [reflexivity | discriminate H].
Qed.

Lemma allScores_length : Z.of_nat (length allScores) = ScoreMax + 1.
Proof. apply Z.eqb_eq. exact (proj1 (proj2 table_check_parts)). Qed.

Lemma allScores_increasing : increasing allScores = true.
Proof. exact (proj1 (proj2 (proj2 table_check_parts))). Qed.

Lemma sorted3_checked : forallb (hand_check false) sorted3 = true.
Proof. exact (proj1 (proj2 (proj2 (proj2 table_check_parts)))). Qed.

Lemma sorted5_checked : forallb (hand_check true) sorted5 = true.
Proof. exact (proj1 (proj2 (proj2 (proj2 (proj2 table_check_parts))))). Qed.

Lemma rankTo5_checked : examples_ok 5 rankTo5 = true.
Proof. exact (proj1 (proj2 (proj2 (proj2 (proj2 (proj2 table_check_parts)))))). Qed.

Lemma rankTo3_checked : examples_ok 3 rankTo3 = true.
Proof.
  exact (proj1 (proj2 (proj2 (proj2 (proj2 (proj2 (proj2 table_check_parts))))))).
Qed.

Lemma ranks_covered_checked : ranks_covered = true.
Proof.
  exact (proj2 (proj2 (proj2 (proj2 (proj2 (proj2 (proj2 table_check_parts))))))).
Qed.

(** *** Wrap-around and the order of the factors *)

Lemma wrap32_mod (z : Z) :
  wrap32 z = (z + 2147483648) mod 4294967296 - 2147483648.
Proof.
  unfold wrap32. change 4294967295 with (Z.ones 32).
  rewrite Z.land_ones by lia. reflexivity.
Qed.

Lemma wrap32_mul_l (a b : Z) : wrap32 (wrap32 a * b) = wrap32 (a * b).
Proof.
  rewrite (wrap32_mod (wrap32 a * b)), (wrap32_mod (a * b)), (wrap32_mod a).
  f_equal.
  rewrite (Z.mod_eq (a + 2147483648) 4294967296) by lia.
  replace ((a + 2147483648 - 4294967296 * ((a + 2147483648) / 4294967296)
            - 2147483648) * b + 2147483648)
    with (a * b + 2147483648
          + (- ((a + 2147483648) / 4294967296) * b) * 4294967296) by ring.
  apply Z_mod_plus_full.
Qed.

Lemma wrap32_mul_swap (a p q : Z) :
  wrap32 (wrap32 (a * p) * q) = wrap32 (wrap32 (a * q) * p).
Proof. rewrite !wrap32_mul_l. f_equal. ring. Qed.

Lemma fold_left_comm_perm {A B : Type} (f : A -> B -> A) :
  (forall a x y, f (f a x) y = f (f a y) x) ->
  forall l l', Permutation l l' -> forall a, fold_left f l a = fold_left f l' a.
Proof.
  intros Hc l l' Hp.
  induction Hp as [| x l l' Hp IH | x y l | l l' l'' Hp1 IH1 Hp2 IH2]; intros a.
  - reflexivity.
  - cbn [fold_left]. apply IH.
  - cbn [fold_left]. rewrite Hc. reflexivity.
  - rewrite IH1. apply IH2.
Qed.

Lemma key_of_ranks_perm (rs rs' : list Rank) (acc : Z) :
  Permutation rs rs' -> key_of_ranks rs acc = key_of_ranks rs' acc.
Proof.
  intros Hp. unfold key_of_ranks. apply fold_left_comm_perm; [| exact Hp].
  intros a x y. apply wrap32_mul_swap.
Qed.

(** [index] does not depend on the order of the cards. *)
Lemma index_perm (c c' : list Card) : Permutation c c' -> index c = index c'.
Proof.
  intros Hp. unfold index.
  rewrite (fold_left_comm_perm index_step) with (l' := c'); [| | exact Hp].
  - rewrite (Permutation_length Hp). reflexivity.
  - intros [r s] x y. unfold index_step. cbn [fst snd].
    rewrite wrap32_mul_swap.
    rewrite <- !Z.land_assoc, (Z.land_comm x y). reflexivity.
Qed.

(** *** The sorted rank tuples *)

Lemma ranks_from_In (r x : Rank) :
  In x (ranks_from r) <-> In x all_ranks /\ r <= x.
Proof.
  unfold ranks_from. rewrite filter_In, Z.leb_le. reflexivity.
Qed.

Lemma elem_ranks_from (r x : Rank) :
  In x all_ranks -> r <= x -> x ∈ ranks_from r.
Proof. intros H1 H2. apply list_elem_of_In, ranks_from_In. auto. Qed.

Lemma sorted3_In (a b c : Rank) :
  In a all_ranks -> In b all_ranks -> In c all_ranks ->
  a <= b -> b <= c -> In [a; b; c] sorted3.
Proof.
  intros Ha Hb Hc Hab Hbc. apply list_elem_of_In. unfold sorted3.
  apply list_elem_of_bind. exists a. split; [| apply list_elem_of_In, Ha].
  apply list_elem_of_bind. exists b. split; [| apply elem_ranks_from; assumption].
  apply list_elem_of_bind. exists c. split; [| apply elem_ranks_from; assumption].
  apply list_elem_of_singleton. reflexivity.
Qed.

Lemma sorted5_In (a b c d e : Rank) :
  In a all_ranks -> In b all_ranks -> In c all_ranks ->
  In d all_ranks -> In e all_ranks ->
  a <= b -> b <= c -> c <= d -> d <= e -> In [a; b; c; d; e] sorted5.
Proof.
  intros Ha Hb Hc Hd He Hab Hbc Hcd Hde. apply list_elem_of_In. unfold sorted5.
  apply list_elem_of_bind. exists a. split; [| apply list_elem_of_In, Ha].
  apply list_elem_of_bind. exists b. split; [| apply elem_ranks_from; assumption].
  apply list_elem_of_bind. exists c. split; [| apply elem_ranks_from; assumption].
  apply list_elem_of_bind. exists d. split; [| apply elem_ranks_from; assumption].
  apply list_elem_of_bind. exists e. split; [| apply elem_ranks_from; assumption].
  apply list_elem_of_singleton. reflexivity.
Qed.

Lemma Sorted_cons2 (a b : Z) (l : list Z) :
  Sorted Z.le (a :: b :: l) -> a <= b /\ Sorted Z.le (b :: l).
Proof.
  intros H. apply Sorted_inv in H as [Hs Hh]. apply HdRel_inv in Hh. auto.
Qed.

(** Every list has a sorted arrangement. *)
Lemma sorted_arrangement (l : list Z) :
  exists l', Permutation l' l /\ Sorted Z.le l'.
Proof.
  exists (merge_sort Z.le l). split.
  - apply merge_sort_Permutation.
  - apply Sorted_merge_sort. apply _.
Qed.

Lemma hand_check_sorted (five : bool) (rs : list Rank) :
  (forall r, In r rs -> In r all_ranks) -> Sorted Z.le rs ->
  length rs = (if five then 5 else 3)%nat ->
  hand_check five rs = true.
Proof.
  intros Hr Hs Hlen. destruct five.
  - destruct rs as [| a [| b [| c [| d [| e [| ? ?]]]]]]; try discriminate Hlen.
    apply Sorted_cons2 in Hs as [Hab Hs]. apply Sorted_cons2 in Hs as [Hbc Hs].
    apply Sorted_cons2 in Hs as [Hcd Hs]. apply Sorted_cons2 in Hs as [Hde Hs].
    apply (proj1 (forallb_forall _ _) sorted5_checked).
    apply sorted5_In; try assumption; apply Hr; simpl; auto 6.
  - destruct rs as [| a [| b [| c [| ? ?]]]]; try discriminate Hlen.
    apply Sorted_cons2 in Hs as [Hab Hs]. apply Sorted_cons2 in Hs as [Hbc Hs].
    apply (proj1 (forallb_forall _ _) sorted3_checked).
    apply sorted3_In; try assumption; apply Hr; simpl; auto.
Qed.

(** *** From the checks to the lookups *)

Lemma index_from_elem (l : list Z) (i v s : Z) :
  (v, s) ∈ index_from i l -> i <= v /\ l !! Z.to_nat (v - i) = Some s.
Proof.
  revert i. induction l as [| x l IH]; intros i H; cbn [index_from] in H.
  - apply elem_of_nil in H. contradiction.
  - apply elem_of_cons in H as [H | H].
    + injection H as -> ->. split; [lia |]. rewrite Z.sub_diag. reflexivity.
    + apply IH in H as [Hle Hl]. split; [lia |].
      replace (Z.to_nat (v - i)) with (S (Z.to_nat (v - (i + 1)))) by lia.
      exact Hl.
Qed.

Lemma score_at_lookup (v s : Z) :
  score_at !! v = Some s -> 0 <= v /\ allScores !! Z.to_nat v = Some s.
Proof.
  intros H. unfold score_at, slice_of in H. apply elem_of_list_to_map_2 in H.
  apply index_from_elem in H. rewrite Z.sub_0_r in H. exact H.
Qed.

Lemma opt_eqb_true (a b : option Z) :
  opt_eqb a b = true -> exists s, a = Some s /\ b = Some s.
Proof.
  destruct a as [x |], b as [y |]; try discriminate 1.
  intros H. apply Z.eqb_eq in H. subst y. eauto.
Qed.

Lemma agrees_lookup (key : Z) (o : option Z) :
  agrees key o = true -> exists s, o = Some s /\ lookup_slow key s.
Proof.
  intros H. apply opt_eqb_true in H as (s & Hv & ->).
  apply bind_Some in Hv as (v & E & E2).
  apply score_at_lookup in E2 as [H0 Hl].
  exists s. split; [reflexivity |]. exists v. split; [exact E |].
  split; [| exact Hl]. split; [exact H0 |].
  apply lookup_lt_Some in Hl. pose proof allScores_length as Hn. lia.
Qed.

Lemma lookup_slow_ok (key s : Z) : lookup_slow key s -> lookup_ok key.
Proof. intros (v & E & Hv & _). exists v. auto. Qed.

(** A sorted rank tuple is found in the table with the position of its
    slow score, and so is the flush of five distinct ranks. *)
Lemma lookup_slow_sorted (five : bool) (rs : list Rank) :
  (forall r, In r rs -> In r all_ranks) -> Sorted Z.le rs ->
  length rs = (if five then 5 else 3)%nat ->
  (exists s, evalSlow_ranks rs false false = Some s
             /\ lookup_slow (key_of_ranks rs 1) s)
  /\ (five = true -> NoDup rs ->
      exists s, evalSlow_ranks rs true false = Some s
                /\ lookup_slow (wrap32 (- key_of_ranks rs 1)) s).
Proof.
  intros Hr Hs Hlen. pose proof (hand_check_sorted five rs Hr Hs Hlen) as C.
  unfold hand_check in C.
  destruct (agrees (key_of_ranks rs 1) (evalSlow_ranks rs false false)) eqn:E1;
    [| discriminate C].
  split; [apply agrees_lookup; exact E1 |].
  intros -> Hnd. rewrite (distinctb_NoDup _ Hnd) in C.
  apply agrees_lookup. exact C.
Qed.

Lemma lookup_ok3 (r1 r2 r3 : Rank) :
  In r1 all_ranks -> In r2 all_ranks -> In r3 all_ranks ->
  lookup_ok (key_of_ranks [r1; r2; r3] 1).
Proof.
  intros H1 H2 H3.
  destruct (sorted_arrangement [r1; r2; r3]) as (l & Hp & Hs).
  rewrite <- (key_of_ranks_perm _ _ 1 Hp).
  destruct (lookup_slow_sorted false l) as [(s & _ & Hl) _].
  - intros r Hr. apply (Permutation_in _ Hp) in Hr.
    destruct Hr as [<- | [<- | [<- | []]]]; assumption.
  - exact Hs.
  - apply (Permutation_length Hp).
  - apply (lookup_slow_ok _ s Hl).
Qed.

Lemma lookup_ok5 (r1 r2 r3 r4 r5 : Rank) :
  In r1 all_ranks -> In r2 all_ranks -> In r3 all_ranks ->
  In r4 all_ranks -> In r5 all_ranks ->
  lookup_ok (key_of_ranks [r1; r2; r3; r4; r5] 1)
  /\ (NoDup [r1; r2; r3; r4; r5] ->
      lookup_ok (wrap32 (- key_of_ranks [r1; r2; r3; r4; r5] 1))).
Proof.
  intros H1 H2 H3 H4 H5.
  destruct (sorted_arrangement [r1; r2; r3; r4; r5]) as (l & Hp & Hs).
  rewrite <- (key_of_ranks_perm _ _ 1 Hp).
  destruct (lookup_slow_sorted true l) as [(s & _ & Hl) Hf].
  - intros r Hr. apply (Permutation_in _ Hp) in Hr.
    destruct Hr as [<- | [<- | [<- | [<- | [<- | []]]]]]; assumption.
  - exact Hs.
  - apply (Permutation_length Hp).
  - split; [apply (lookup_slow_ok _ s Hl) |].
    intros Hnd. rewrite <- Hp in Hnd.
    destruct (Hf eq_refl Hnd) as (s' & _ & Hl').
    apply (lookup_slow_ok _ s' Hl').
Qed.

Lemma flush_suits (s1 s2 s3 s4 s5 : Suit) :
  In s1 all_suits -> In s2 all_suits -> In s3 all_suits ->
  In s4 all_suits -> In s5 all_suits ->
  negb (Z.land (suits_of [s1; s2; s3; s4; s5] 960) 960 =? 0) = true ->
  s2 = s1 /\ s3 = s1 /\ s4 = s1 /\ s5 = s1.
Proof.
  intros S1 S2 S3 S4 S5 Hf.
  pose proof check_suits_true as D.
  use_forallb D s1. specialize (D S1).
  use_forallb D s2. specialize (D S2).
  use_forallb D s3. specialize (D S3).
  use_forallb D s4. specialize (D S4).
  use_forallb D s5. specialize (D S5).
  apply Bool.eqb_prop in D. rewrite Hf in D. symmetry in D.
  apply andb_true_iff in D as [D E5]. apply andb_true_iff in D as [D E4].
  apply andb_true_iff in D as [E2 E3].
  apply Z.eqb_eq in E2, E3, E4, E5. auto.
Qed.

(** The key of a hand of three or five distinct deck cards is in the
    table, with a value between 0 and [ScoreMax]. *)
Lemma index_lookup_ok (c : list Card) :
  NoDup c -> (forall x, In x c -> In x Cards) ->
  (length c = 3 \/ length c = 5)%nat ->
  lookup_ok (index c).
Proof.
  intros Hnd Hdeck Hlen.
  destruct (deck_cards_sr c Hdeck) as (srs & -> & Hv).
  rewrite index_deck by assumption. cbv zeta.
  rewrite length_map in Hlen.
  destruct Hlen as [Hlen | Hlen].
  - rewrite Hlen. change ((3 =? 5)%nat) with false. cbv iota beta delta [andb].
    destruct srs as [| [s1 r1] [| [s2 r2] [| [s3 r3] [| ? ?]]]]; try discriminate.
    inversion Hv as [| ? ? [_ H1] Hv1]; subst.
    inversion Hv1 as [| ? ? [_ H2] Hv2]; subst.
    inversion Hv2 as [| ? ? [_ H3] _]; subst.
    apply lookup_ok3; assumption.
  - rewrite Hlen. change ((5 =? 5)%nat) with true. cbv iota beta delta [andb].
    destruct srs as [| [s1 r1] [| [s2 r2] [| [s3 r3] [| [s4 r4] [| [s5 r5] [| ? ?]]]]]];
      try discriminate.
    inversion Hv as [| ? ? [S1 H1] Hv1]; subst.
    inversion Hv1 as [| ? ? [S2 H2] Hv2]; subst.
    inversion Hv2 as [| ? ? [S3 H3] Hv3]; subst.
    inversion Hv3 as [| ? ? [S4 H4] Hv4]; subst.
    inversion Hv4 as [| ? ? [S5 H5] _]; subst.
    cbn [List.map fst snd] in *.
    destruct (lookup_ok5 r1 r2 r3 r4 r5 H1 H2 H3 H4 H5) as [Cplain Cflush].
    destruct (negb (Z.land (suits_of [s1; s2; s3; s4; s5] 960) 960 =? 0)) eqn:Ef;
      [| exact Cplain].
    apply (flush_suits s1 s2 s3 s4 s5 S1 S2 S3 S4 S5) in Ef as (-> & -> & -> & ->).
    apply Cflush. apply (NoDup_fmap_1 (card_of s1)). exact Hnd.
Qed.

(** C2: for every hand of three or of five distinct cards of the deck,
    [Eval] returns (the probe loop meets an entry holding the hand's key)
    and its value lies between 0 and [ScoreMax] = 6785. *)
Theorem Eval_total_in_range (c : list Card) :
  NoDup c -> (forall x, In x c -> In x Cards) ->
  (length c = 3 \/ length c = 5)%nat ->
  exists v slot,
    Eval c = Some v /\ entry evalTable slot = (index c, v)
    /\ 0 <= v <= ScoreMax /\ ScoreMax = 6785.
Proof.
  intros Hnd Hdeck Hlen.
  destruct (index_lookup_ok c Hnd Hdeck Hlen) as (v & E & Hv).
  destruct (probe_Some _ _ _ E) as [slot Hslot].
  exists v, slot. exact (conj E (conj Hslot (conj Hv eq_refl))).
Qed.

Lemma Eval_total_in_range_witness :
  exists v slot,
    Eval [66; 131; 261; 519; 75] = Some v
    /\ entry evalTable slot = (index [66; 131; 261; 519; 75], v)
    /\ 0 <= v <= ScoreMax /\ ScoreMax = 6785.
Proof.
  apply Eval_total_in_range.
  - apply distinctb_true. reflexivity.
  - intros x Hx. vm_compute. vm_compute in Hx. tauto.
  - right. reflexivity.
Defined.

(** ** The 2-4 score *)

(** Each lane is won, lost or tied. *)
Lemma lane_cases (a b : Z) :
  ((a >? b) = true /\ (b >? a) = false /\ a > b)
  \/ ((a >? b) = false /\ (b >? a) = true /\ b > a)
  \/ ((a >? b) = false /\ (b >? a) = false /\ a = b).
Proof.
  destruct (Z.gtb_spec a b), (Z.gtb_spec b a); lia.
Qed.

Ltac cmp_cases a0 b0 a1 b1 a2 b2 :=
  unfold cmp;
  destruct (lane_cases a0 b0) as [(-> & -> & ?) | [(-> & -> & ?) | (-> & -> & ?)]];
  destruct (lane_cases a1 b1) as [(-> & -> & ?) | [(-> & -> & ?) | (-> & -> & ?)]];
  destruct (lane_cases a2 b2) as [(-> & -> & ?) | [(-> & -> & ?) | (-> & -> & ?)]];
  simpl.

(** The score only depends on which lanes are won and lost. *)
Lemma cmp_outcome_sound (a0 b0 a1 b1 a2 b2 : Z) :
  a0 <> b0 -> a1 <> b1 -> a2 <> b2 ->
  cmp a0 b0 a1 b1 a2 b2 = cmp_outcome (a0 >? b0) (a1 >? b1) (a2 >? b2).
Proof.
  intros H0 H1 H2. unfold cmp_outcome.
  cmp_cases a0 b0 a1 b1 a2 b2; try reflexivity; lia.
Qed.

(** C5: [cmp] is antisymmetric, its absolute value is one of 0..4, and it
    is +4 (resp. -4) exactly when the first (resp. second) side strictly
    wins all three lanes. *)
Theorem cmp_symmetry_range_scoop (a0 b0 a1 b1 a2 b2 : Z) :
  cmp a0 b0 a1 b1 a2 b2 = - cmp b0 a0 b1 a1 b2 a2
  /\ In (Z.abs (cmp a0 b0 a1 b1 a2 b2)) [0; 1; 2; 3; 4]
  /\ (cmp a0 b0 a1 b1 a2 b2 = 4 <-> a0 > b0 /\ a1 > b1 /\ a2 > b2)
  /\ (cmp a0 b0 a1 b1 a2 b2 = -4 <-> b0 > a0 /\ b1 > a1 /\ b2 > a2).
Proof.
  cmp_cases a0 b0 a1 b1 a2 b2;
    (split; [reflexivity | split; [auto 6 | split; split; intros; lia]]).
Qed.

(** ** Binary64 rounding *)

Lemma pow2_pos (k : Z) : (0 < pow2 k)%Q.
Proof. apply Qpower_0_lt. reflexivity. Qed.

Lemma pow2_le (k k' : Z) : k <= k' -> (pow2 k <= pow2 k')%Q.
Proof. intros H. apply Qpower_le_compat_l; [exact H | discriminate]. Qed.

Lemma pow2_le_inv (k k' : Z) : (pow2 k <= pow2 k')%Q -> k <= k'.
Proof. intros H. apply (Qpower_le_compat_l_inv 2); [exact H | reflexivity]. Qed.

Lemma pow2_Z (k : Z) : 0 <= k -> (pow2 k == inject_Z (2 ^ k))%Q.
Proof. intros H. unfold pow2. rewrite Zpower_Qpower by exact H. reflexivity. Qed.

Lemma pow2_succ (k : Z) : (pow2 (k + 1) == 2 * pow2 k)%Q.
Proof.
  unfold pow2. rewrite Qpower_plus by discriminate.
  change (2 ^ 1)%Q with 2%Q. ring.
Qed.

Lemma rne_error (y : Q) : (Qabs (inject_Z (rne y) - y) <= 1 # 2)%Q.
Proof.
  unfold rne. pose proof (Qfloor_le y) as H1. pose proof (Qlt_floor y) as H2.
  rewrite inject_Z_plus in H2. change (inject_Z 1) with 1%Q in H2.
  apply Qabs_Qle_condition.
  destruct (Qcompare_spec (y - inject_Z (Qfloor y)) (1 # 2)) as [E | E | E].
  - destruct (Z.even (Qfloor y)); rewrite ?inject_Z_plus;
      change (inject_Z 1) with 1%Q; lra.
  - lra.
  - rewrite inject_Z_plus. change (inject_Z 1) with 1%Q. lra.
Qed.

Lemma exponent_le (x : Q) : ~ (x == 0)%Q -> (pow2 (exponent x) <= Qabs x)%Q.
Proof.
  intros Hx. unfold exponent.
  set (a := Z.log2 (Z.abs (Qnum x)) - Z.log2 (Z.pos (Qden x))).
  destruct (Qle_bool (pow2 a) (Qabs x)) eqn:E; [apply Qle_bool_iff; exact E |].
  clear E. subst a. destruct x as [n d]. cbn [Qnum Qden].
  assert (Hn : n <> 0).
  { intros ->. apply Hx. reflexivity. }
  pose proof (Z.log2_nonneg (Z.abs n)) as Ln.
  pose proof (Z.log2_nonneg (Z.pos d)) as Ld.
  pose proof (Z.log2_spec (Z.abs n) ltac:(lia)) as [Sn _].
  pose proof (Z.log2_spec (Z.pos d) ltac:(lia)) as [_ Sd].
  replace (Z.log2 (Z.abs n) - Z.log2 (Z.pos d) - 1)
    with (Z.log2 (Z.abs n) - Z.succ (Z.log2 (Z.pos d))) by lia.
  unfold pow2. rewrite Qpower_minus by discriminate.
  fold (pow2 (Z.log2 (Z.abs n))) (pow2 (Z.succ (Z.log2 (Z.pos d)))).
  rewrite !pow2_Z by lia.
  apply Qle_shift_div_r.
  - change 0%Q with (inject_Z 0). rewrite <- Zlt_Qlt. lia.
  - unfold Qabs, Qle, Qmult, inject_Z. cbn [Qnum Qden].
    rewrite !Z.mul_1_r. rewrite Pos.mul_1_r.
    assert (0 < 2 ^ Z.log2 (Z.abs n)) by (apply Z.pow_pos_nonneg; lia).
    nia.
Qed.

Lemma round64_error (x : Q) :
  (Qabs x < 32)%Q -> (Qabs (round64 x - x) <= round_err)%Q.
Proof.
  intros Hx. unfold round64. destruct (Qeq_bool x 0) eqn:E.
  - apply Qeq_bool_iff in E. rewrite E. vm_compute. discriminate.
  - apply Qeq_bool_neq in E. rewrite Qred_correct.
    set (k := ulp_exp x).
    assert (Hk : k <= -48).
    { subst k. unfold ulp_exp.
      assert (exponent x <= 4); [| lia].
      assert (exponent x < 5); [| lia].
      apply (Qpower_lt_compat_l_inv 2); [| reflexivity].
      apply Qle_lt_trans with (Qabs x); [apply exponent_le, E |].
      exact Hx. }
    pose proof (pow2_pos k) as Hp.
    assert (Hy : (x == x / pow2 k * pow2 k)%Q) by (field; lra).
    rewrite Hy at 2.
    setoid_replace (inject_Z (rne (x / pow2 k)) * pow2 k - x / pow2 k * pow2 k)%Q
      with ((inject_Z (rne (x / pow2 k)) - x / pow2 k) * pow2 k)%Q using relation Qeq by ring.
    rewrite Qabs_Qmult. rewrite (Qabs_pos (pow2 k)) by lra.
    pose proof (rne_error (x / pow2 k)) as Hr.
    pose proof (pow2_le k (-48) Hk) as Hk'.
    pose proof (pow2_succ (-49)) as Hs. change (-49 + 1) with (-48) in Hs.
    unfold round_err.
    apply Qle_trans with ((1 # 2) * pow2 k)%Q.
    + apply Qmult_le_compat_r; [exact Hr | lra].
    + lra.
Qed.

(** A sum, difference or product below 32 in magnitude is finite. *)
Lemma f64_of_Q_fin (x : Q) :
  (Qabs x < 32)%Q ->
  exists r, f64_of_Q x = Fin r /\ (Qabs (r - x) <= round_err)%Q.
Proof.
  intros Hx. pose proof (round64_error x Hx) as He.
  exists (round64 x). split; [| exact He].
  unfold f64_of_Q. cbv zeta.
  destruct (Qle_bool (pow2 1024) (Qabs (round64 x))) eqn:E; [| reflexivity].
  exfalso. apply Qle_bool_iff in E.
  assert (Hd : (round_err <= 1)%Q) by (vm_compute; discriminate).
  pose proof (pow2_le 6 1024 ltac:(lia)) as H6.
  change (pow2 6) with 64%Q in H6.
  pose proof (Qabs_triangle (round64 x - x) x) as Ht.
  setoid_replace (round64 x - x + x)%Q with (round64 x) using relation Qeq in Ht by ring.
  lra.
Qed.

Lemma round_err_small : (0 < round_err)%Q /\ (inject_Z 1000 * round_err <= 1 # 1000)%Q.
Proof. split; vm_compute; reflexivity || discriminate. Qed.

Lemma approx_exact (x : Q) (X : Z) : (Qabs x <= inject_Z X)%Q -> approx64 x x X 0.
Proof.
  intros H. split; [exact H |].
  setoid_replace (x - x)%Q with 0%Q using relation Qeq by ring. vm_compute. discriminate.
Qed.

Lemma approx_bound (r x : Q) (X X' n : Z) :
  approx64 r x X n -> (Qabs x <= inject_Z X')%Q -> approx64 r x X' n.
Proof. intros [_ H] H'. split; assumption. Qed.

Lemma approx_finite (r1 x : Q) (X n : Z) :
  (Qabs x <= inject_Z X)%Q -> (Qabs (r1 - x) <= inject_Z n * round_err)%Q ->
  0 <= n <= 1000 -> X <= 30 ->
  exists r, f64_of_Q r1 = Fin r /\ approx64 r x X (n + 1).
Proof.
  intros Hx Hr Hn HX. destruct round_err_small as [D0 D1].
  assert (Hn' : (inject_Z n * round_err <= 1 # 1000)%Q).
  { apply Qle_trans with (inject_Z 1000 * round_err)%Q; [| exact D1].
    apply Qmult_le_compat_r; [rewrite <- Zle_Qle; lia | lra]. }
  assert (HX' : (inject_Z X <= 30)%Q).
  { change 30%Q with (inject_Z 30). rewrite <- Zle_Qle. exact HX. }
  destruct (f64_of_Q_fin r1) as (r & E & He).
  { apply Qabs_Qle_condition in Hx, Hr. apply Qabs_Qlt_condition. lra. }
  exists r. split; [exact E |]. split; [exact Hx |].
  rewrite inject_Z_plus. change (inject_Z 1) with 1%Q.
  apply Qabs_Qle_condition in Hr, He. apply Qabs_Qle_condition. lra.
Qed.

Lemma approx_add (r1 r2 x1 x2 : Q) (X1 X2 n1 n2 : Z) :
  approx64 r1 x1 X1 n1 -> approx64 r2 x2 X2 n2 ->
  0 <= n1 -> 0 <= n2 -> n1 + n2 <= 1000 -> X1 + X2 <= 30 ->
  exists r, (Fin r1 + Fin r2)%f64 = Fin r
            /\ approx64 r (x1 + x2) (X1 + X2) (n1 + n2 + 1).
Proof.
  intros [B1 E1] [B2 E2] H1 H2 Hn HX. cbn [f64_add].
  apply approx_finite; [| | lia | lia].
  - rewrite inject_Z_plus. apply Qabs_Qle_condition in B1, B2.
    apply Qabs_Qle_condition. lra.
  - rewrite inject_Z_plus. apply Qabs_Qle_condition in E1, E2.
    apply Qabs_Qle_condition. lra.
Qed.

Lemma approx_sub (r1 r2 x1 x2 : Q) (X1 X2 n1 n2 : Z) :
  approx64 r1 x1 X1 n1 -> approx64 r2 x2 X2 n2 ->
  0 <= n1 -> 0 <= n2 -> n1 + n2 <= 1000 -> X1 + X2 <= 30 ->
  exists r, (Fin r1 - Fin r2)%f64 = Fin r
            /\ approx64 r (x1 - x2) (X1 + X2) (n1 + n2 + 1).
Proof.
  intros [B1 E1] [B2 E2] H1 H2 Hn HX. unfold f64_sub. cbn [f64_opp f64_add].
  apply approx_finite; [| | lia | lia].
  - rewrite inject_Z_plus. apply Qabs_Qle_condition in B1, B2.
    apply Qabs_Qle_condition. lra.
  - rewrite inject_Z_plus. apply Qabs_Qle_condition in E1, E2.
    apply Qabs_Qle_condition. lra.
Qed.

Lemma Qabs_mult_le (a b A B : Q) :
  (Qabs a <= A)%Q -> (Qabs b <= B)%Q -> (Qabs (a * b) <= A * B)%Q.
Proof.
  intros Ha Hb. rewrite Qabs_Qmult.
  pose proof (Qabs_nonneg a). pose proof (Qabs_nonneg b).
  apply Qle_trans with (A * Qabs b)%Q.
  - apply Qmult_le_compat_r; assumption.
  - rewrite (Qmult_comm A (Qabs b)), (Qmult_comm A B).
    apply Qmult_le_compat_r; [assumption |].
    apply Qle_trans with (Qabs a); assumption.
Qed.

Lemma approx_mul (r1 r2 x1 x2 : Q) (X1 X2 n1 n2 : Z) :
  approx64 r1 x1 X1 n1 -> approx64 r2 x2 X2 n2 ->
  0 <= n1 <= 100 -> 0 <= n2 <= 100 -> 0 <= X1 <= 30 -> 0 <= X2 <= 30 ->
  X1 * X2 <= 30 -> X1 * n2 + X2 * n1 <= 999 ->
  exists r, (Fin r1 * Fin r2)%f64 = Fin r
            /\ approx64 r (x1 * x2) (X1 * X2) (X1 * n2 + X2 * n1 + 2).
Proof.
  intros [B1 E1] [B2 E2] H1 H2 HX1 HX2 HX Hs. cbn [f64_mul].
  destruct round_err_small as [D0 D1].
  assert (Hn : 0 <= X1 * n2 + X2 * n1 + 1 <= 1000) by nia.
  replace (X1 * n2 + X2 * n1 + 2) with (X1 * n2 + X2 * n1 + 1 + 1) by lia.
  apply approx_finite; [| | lia | lia].
  - rewrite inject_Z_mult. apply Qabs_mult_le; assumption.
  - setoid_replace (r1 * r2 - x1 * x2)%Q
      with (x1 * (r2 - x2) + x2 * (r1 - x1) + (r1 - x1) * (r2 - x2))%Q using relation Qeq by ring.
    pose proof (Qabs_mult_le _ _ _ _ B1 E2) as P1.
    pose proof (Qabs_mult_le _ _ _ _ B2 E1) as P2.
    pose proof (Qabs_mult_le _ _ _ _ E1 E2) as P3.
    pose proof (Qabs_triangle (x1 * (r2 - x2) + x2 * (r1 - x1))
                  ((r1 - x1) * (r2 - x2))) as T1.
    pose proof (Qabs_triangle (x1 * (r2 - x2)) (x2 * (r1 - x1))) as T2.
    assert (P4 : (inject_Z n1 * round_err * (inject_Z n2 * round_err) <= round_err)%Q).
    { assert (A1 : (0 <= inject_Z n1 <= 100)%Q).
      { change 0%Q with (inject_Z 0). change 100%Q with (inject_Z 100).
        rewrite <- !Zle_Qle. lia. }
      assert (A2 : (0 <= inject_Z n2 <= 100)%Q).
      { change 0%Q with (inject_Z 0). change 100%Q with (inject_Z 100).
        rewrite <- !Zle_Qle. lia. }
      assert (A3 : (inject_Z n1 * inject_Z n2 <= 100 * 100)%Q).
      { apply Qle_trans with (100 * inject_Z n2)%Q.
        - apply Qmult_le_compat_r; lra.
        - rewrite (Qmult_comm 100 (inject_Z n2)).
          apply Qmult_le_compat_r; lra. }
      assert (A4 : (100 * 100 * round_err <= 1)%Q) by (vm_compute; discriminate).
      setoid_replace (inject_Z n1 * round_err * (inject_Z n2 * round_err))%Q
        with (inject_Z n1 * inject_Z n2 * round_err * round_err)%Q using relation Qeq by ring.
      apply Qle_trans with (1 * round_err)%Q; [| lra].
      apply Qmult_le_compat_r; [| lra].
      apply Qle_trans with (100 * 100 * round_err)%Q; [| exact A4].
      apply Qmult_le_compat_r; lra. }
    rewrite !inject_Z_plus, !inject_Z_mult. change (inject_Z 1) with 1%Q.
    lra.
Qed.

(** ** The sampled scorer's closed form *)

(** Without rounding, the expression is the expectation of the 2-4 score
    under three independent Bernoulli lanes. *)
Lemma score_exact_expected_cmp (pf pm pb : Q) :
  (score_exact pf pm pb == expected_cmp pf pm pb)%Q.
Proof.
  unfold score_exact, expected_cmp, Qsum, outcomes, bernoulli.
  cbn [List.map fold_right].
  change (cmp_outcome true true true) with 4.
  change (cmp_outcome true true false) with 2.
  change (cmp_outcome true false true) with 2.
  change (cmp_outcome true false false) with (-2).
  change (cmp_outcome false true true) with 2.
  change (cmp_outcome false true false) with (-2).
  change (cmp_outcome false false true) with (-2).
  change (cmp_outcome false false false) with (-4).
  unfold inject_Z. ring.
Qed.

Lemma approx_weaken (r x : Q) (X X' n n' : Z) :
  approx64 r x X n -> X <= X' -> n <= n' -> approx64 r x X' n'.
Proof.
  intros [B E] HX Hn. destruct round_err_small as [D0 _]. split.
  - apply Qle_trans with (inject_Z X); [exact B |]. rewrite <- Zle_Qle. exact HX.
  - apply Qle_trans with (inject_Z n * round_err)%Q; [exact E |].
    apply Qmult_le_compat_r; [rewrite <- Zle_Qle; exact Hn | lra].
Qed.

(** One operation of the expression: [L] is the lemma of the operation
    applied to the facts on its operands, [X] and [n] the bounds on the
    magnitude and on the number of roundings of the result. *)
Ltac f64_step L r E A X n :=
  destruct L as (r & E & A); [lia .. |];
  apply (approx_weaken _ _ _ X _ n) in A; [| lia | lia].

Lemma approx_prob (p : Q) : (0 <= p <= 1)%Q -> approx64 p p 1 0.
Proof.
  intros H. apply approx_exact. apply Qabs_Qle_condition.
  change (inject_Z 1) with 1%Q. lra.
Qed.

Lemma approx_compl (r p : Q) (X n : Z) :
  (0 <= p <= 1)%Q -> approx64 r (1 - p) X n -> approx64 r (1 - p) 1 n.
Proof.
  intros H A. apply (approx_bound _ _ _ _ _ A). apply Qabs_Qle_condition.
  change (inject_Z 1) with 1%Q. lra.
Qed.

(** The sum of products [x*y + x*z + y*z - 2*x*y*z] of [evaluateHand]. *)
Lemma approx_bonus (x y z x' y' z' : Q) (n : Z) :
  approx64 x' x 1 n -> approx64 y' y 1 n -> approx64 z' z 1 n -> 0 <= n <= 1 ->
  exists r, (Fin x' * Fin y' + Fin x' * Fin z' + Fin y' * Fin z'
             - Fin 2 * Fin x' * Fin y' * Fin z')%f64 = Fin r
            /\ approx64 r (x * y + x * z + y * z - 2 * x * y * z) 5 (12 * n + 15).
Proof.
  intros Ax Ay Az Hn.
  assert (A2 : approx64 2 2 2 0) by (apply approx_exact; vm_compute; discriminate).
  f64_step (approx_mul _ _ _ _ _ _ _ _ Ax Ay) t1 E1 T1 1 (2 * n + 2).
  f64_step (approx_mul _ _ _ _ _ _ _ _ Ax Az) t2 E2 T2 1 (2 * n + 2).
  f64_step (approx_add _ _ _ _ _ _ _ _ T1 T2) t3 E3 T3 2 (4 * n + 5).
  f64_step (approx_mul _ _ _ _ _ _ _ _ Ay Az) t4 E4 T4 1 (2 * n + 2).
  f64_step (approx_add _ _ _ _ _ _ _ _ T3 T4) t5 E5 T5 3 (6 * n + 8).
  f64_step (approx_mul _ _ _ _ _ _ _ _ A2 Ax) t6 E6 T6 2 (2 * n + 2).
  f64_step (approx_mul _ _ _ _ _ _ _ _ T6 Ay) t7 E7 T7 2 (4 * n + 4).
  f64_step (approx_mul _ _ _ _ _ _ _ _ T7 Az) t8 E8 T8 2 (6 * n + 6).
  f64_step (approx_sub _ _ _ _ _ _ _ _ T5 T8) t9 E9 T9 5 (12 * n + 15).
  exists t9. rewrite E1, E2, E3, E4, E5, E6, E7, E8, E9. split; [reflexivity |].
  exact T9.
Qed.

(** C4 (amended): on win probabilities in [[0, 1]] the scoring expression
    of the sampled evaluator, computed in [float64], is finite and within
    [2^-43] of the expectation of the 2-4 score under three independent
    Bernoulli lanes. *)
Theorem score_expr_near_expected_cmp (pf pm pb : Q) :
  (0 <= pf <= 1)%Q -> (0 <= pm <= 1)%Q -> (0 <= pb <= 1)%Q ->
  exists v, score_expr (Fin pf) (Fin pm) (Fin pb) = Fin v
            /\ (Qabs (v - expected_cmp pf pm pb) <= pow2 (-43))%Q.
Proof.
  intros Hf Hm Hb.
  pose proof (approx_prob pf Hf) as Af.
  pose proof (approx_prob pm Hm) as Am.
  pose proof (approx_prob pb Hb) as Ab.
  assert (A1 : approx64 1 1 1 0) by (apply approx_exact; vm_compute; discriminate).
  f64_step (approx_sub _ _ _ _ _ _ _ _ A1 Af) qf Eqf Aqf 2 1. apply (approx_compl _ _ _ _ Hf) in Aqf.
  f64_step (approx_sub _ _ _ _ _ _ _ _ A1 Am) qm Eqm Aqm 2 1. apply (approx_compl _ _ _ _ Hm) in Aqm.
  f64_step (approx_sub _ _ _ _ _ _ _ _ A1 Ab) qb Eqb Aqb 2 1. apply (approx_compl _ _ _ _ Hb) in Aqb.
  destruct (approx_bonus _ _ _ _ _ _ 0 Af Am Ab) as (pbon & Ep & Ap); [lia |].
  destruct (approx_bonus _ _ _ _ _ _ 1 Aqf Aqm Aqb) as (qbon & Eq & Aq); [lia |].
  f64_step (approx_add _ _ _ _ _ _ _ _ Af Am) s1 E1 S1 2 1.
  f64_step (approx_add _ _ _ _ _ _ _ _ S1 Ab) s2 E2 S2 3 2.
  f64_step (approx_sub _ _ _ _ _ _ _ _ S2 Aqf) s3 E3 S3 4 4.
  f64_step (approx_sub _ _ _ _ _ _ _ _ S3 Aqm) s4 E4 S4 5 6.
  f64_step (approx_sub _ _ _ _ _ _ _ _ S4 Aqb) s5 E5 S5 6 8.
  f64_step (approx_add _ _ _ _ _ _ _ _ S5 Ap) s6 E6 S6 11 24.
  f64_step (approx_sub _ _ _ _ _ _ _ _ S6 Aq) s7 E7 S7 16 52.
  exists s7. split.
  - unfold score_expr. cbv zeta. rewrite Eqf, Eqm, Eqb, Ep, Eq, E1, E2, E3, E4, E5, E6, E7.
    reflexivity.
  - destruct S7 as [_ S7]. rewrite <- score_exact_expected_cmp.
    unfold score_exact. cbv zeta.
    apply Qle_trans with (inject_Z 52 * round_err)%Q; [exact S7 |].
    vm_compute. discriminate.
Qed.

Lemma score_expr_near_expected_cmp_witness :
  exists v, score_expr (Fin (1 # 2)) (Fin (1 # 4)) (Fin 1) = Fin v
            /\ (Qabs (v - expected_cmp (1 # 2) (1 # 4) 1) <= pow2 (-43))%Q.
Proof.
  apply score_expr_near_expected_cmp; split; vm_compute; discriminate.
Defined.

(** C4 (the claim as stated fails): at the probability 0.1 for each lane
    the scorer returns -7530018576963469 / 2^51, which is not the
    expectation of the 2-4 score. *)
Lemma score_expr_differs_at_tenth :
  (0 <= tenth <= 1)%Q
  /\ exists v, score_expr (Fin tenth) (Fin tenth) (Fin tenth) = Fin v
               /\ (v == -7530018576963469 # 2251799813685248)%Q
               /\ ~ (v == expected_cmp tenth tenth tenth)%Q.
Proof.
  split; [split; vm_compute; discriminate |].
  exists (-7530018576963469 # 2251799813685248)%Q.
  split; [vm_compute; reflexivity |].
  split; [reflexivity | vm_compute; discriminate].
Qed.

(** The scorer applies the expression to the looked-up probabilities. *)
Lemma evaluateHand_spec (se : SampledEvaluator) (f m b : Z) (pf pm pb : float64) :
  index_f64 (wins_at (se_wins se) 0) f = Some pf ->
  index_f64 (wins_at (se_wins se) 1) m = Some pm ->
  index_f64 (wins_at (se_wins se) 2) b = Some pb ->
  evaluateHand se f m b = Some (score_expr pf pm pb).
Proof. intros Hf Hm Hb. unfold evaluateHand. rewrite Hf, Hm, Hb. reflexivity. Qed.

(** ** Construction of a sampled evaluator from a rollout *)

(** The constructor fails exactly on the first two guards: the third can
    never fire, since [len] of a three-element array is 3. *)
Lemma NewSampledEvaluatorFromRollout_error_iff (re : RolloutEvaluator) :
  (exists e, NewSampledEvaluatorFromRollout re = inr e)
  <-> Separable re = false \/ PreRollout re = false.
Proof.
  unfold NewSampledEvaluatorFromRollout, len_wins3.
  destruct (Separable re), (PreRollout re); simpl; split;
    try (intros [e He]; discriminate He); eauto; intros [H | H]; discriminate.
Qed.

(** C9 (code at the failing input): a separable, pre-rolled-out rollout
    evaluator on which [Init] was never called is accepted, and yields a
    sampled evaluator with three empty arrays. *)
Theorem NewSampledEvaluatorFromRollout_uninitialised_accepted :
  let re := mkRollout true true (fun _ _ _ _ => 0%Q) 1000 [] wins3_zero in
  uninitialised re /\
  NewSampledEvaluatorFromRollout re = inl (mkSampled ([], [], [])).
Proof. split; reflexivity. Qed.

(** ** Loops as folds *)

Lemma iterate_add {A B : Type} (step : A -> B + A) (n m : nat) (a : A) :
  iterate step (n + m) a
  = match iterate step n a with
    | inl b => inl b
    | inr a' => iterate step m a'
    end.
Proof.
  revert a. induction n as [| n IH]; intros a; simpl; [reflexivity |].
  destruct (step a) as [b | a']; [reflexivity | apply IH].
Qed.

Lemma loop_until_iterate {A B : Type} (step : A -> B + A) (p : positive) (a : A) :
  loop_until step p a = iterate step (Pos.to_nat p) a.
Proof.
  revert a. induction p as [p IH | p IH |]; intros a.
  - rewrite Pos2Nat.inj_xI. cbn [loop_until iterate].
    destruct (step a) as [b | a']; [reflexivity |].
    replace (2 * Pos.to_nat p)%nat with (Pos.to_nat p + Pos.to_nat p)%nat by lia.
    rewrite iterate_add, <- IH.
    destruct (loop_until step p a'); [reflexivity | apply IH].
  - rewrite Pos2Nat.inj_xO. cbn [loop_until].
    replace (2 * Pos.to_nat p)%nat with (Pos.to_nat p + Pos.to_nat p)%nat by lia.
    rewrite iterate_add, <- IH.
    destruct (loop_until step p a); [reflexivity | apply IH].
  - simpl. destruct (step a); reflexivity.
Qed.

Lemma iterate_inl_mono {A B : Type} (step : A -> B + A) (n m : nat) (a : A) (b : B) :
  iterate step n a = inl b -> (n <= m)%nat -> iterate step m a = inl b.
Proof.
  intros H Hle. replace m with (n + (m - n))%nat by lia.
  rewrite iterate_add, H. reflexivity.
Qed.

Lemma fold_and_then_None {I St : Type} (body : I -> St -> option St) (l : list I) :
  fold_left (and_then body) l None = None.
Proof. induction l; simpl; auto. Qed.

Lemma for_next_iterate {St : Type} (next : list Z -> list Z * bool)
    (body : list Z -> St -> option St) (n : nat) (ix : list Z) (l : list (list Z)) (s : St) :
  enum_next next n ix = Some l ->
  iterate (for_next_step next body) (S (length l)) (ix, s)
  = inl (fold_left (and_then body) l (Some s)).
Proof.
  revert ix l s. induction n as [| n IH]; intros ix l s; [discriminate |].
  cbn [enum_next]. destruct (next ix) as [ix' more] eqn:En.
  destruct more.
  - destruct (enum_next next n ix') as [l' |] eqn:El; [| discriminate].
    intros [= <-]. cbn [length iterate]. unfold for_next_step at 1.
    cbn [fst snd]. rewrite En. cbn [fold_left and_then mbind option_bind].
    destruct (body ix' s) as [s' |].
    + apply (IH _ _ s') in El. exact El.
    + rewrite fold_and_then_None. reflexivity.
  - intros [= <-]. cbn [length iterate]. unfold for_next_step.
    cbn [fst snd]. rewrite En. reflexivity.
Qed.

(** A [for next(&ix)] loop whose iterator comes to an end is the fold of
    its body over the values of the iterator. *)
Lemma for_next_fold {St : Type} (next : list Z -> list Z * bool)
    (body : list Z -> St -> option St) (n : nat) (ix : list Z) (l : list (list Z)) (s : St) :
  enum_next next n ix = Some l -> (length l < 1000)%nat ->
  for_next next body ix s = fold_left (and_then body) l (Some s).
Proof.
  intros El Hlen. unfold for_next. rewrite loop_until_iterate.
  rewrite (iterate_inl_mono _ (S (length l)) _ _ _ (for_next_iterate next body n ix l s El)).
  - reflexivity.
  - unfold int32_values. lia.
Qed.

Lemma fronts_enum : enum_next next3 300 [-1; 1; 2] = Some fronts.
Proof.
  assert (H : is_some (enum_next next3 300 [-1; 1; 2]) = true)
    by (vm_compute; reflexivity).
  unfold fronts. destruct (enum_next next3 300 [-1; 1; 2]); [reflexivity | discriminate H].
Qed.

Lemma backs_enum : enum_next next4 200 [-1; -1; 1; 2; 3] = Some backs.
Proof.
  assert (H : is_some (enum_next next4 200 [-1; -1; 1; 2; 3]) = true)
    by (vm_compute; reflexivity).
  unfold backs. destruct (enum_next next4 200 [-1; -1; 1; 2; 3]); [reflexivity | discriminate H].
Qed.

Lemma fronts_length : length fronts = 286%nat.
Proof. vm_compute. reflexivity. Qed.

Lemma backs_length : length backs = 126%nat.
Proof. vm_compute. reflexivity. Qed.

Lemma play_front_eq (filter : bool) (evaluator : Z -> Z -> Z -> Q)
    (c : list Card) (fIdx : list Z) (st : play_state) :
  play_front filter evaluator c fIdx st = play_front_fold filter evaluator c fIdx st.
Proof.
  unfold play_front, play_front_fold.
  apply option_bind_ext; [intros c0 | reflexivity].
  apply option_bind_ext; [intros c1 | reflexivity].
  apply option_bind_ext; [intros c2 | reflexivity].
  apply option_bind_ext; [intros ef | reflexivity].
  apply (for_next_fold _ _ _ _ _ _ backs_enum). rewrite backs_length. lia.
Qed.

Lemma fold_left_pointwise {A B : Type} (f g : A -> B -> A) (l : list B) (a : A) :
  (forall x y, f x y = g x y) -> fold_left f l a = fold_left g l a.
Proof.
  intros H. revert a. induction l as [| y l IH]; intros a; [reflexivity |].
  cbn [fold_left]. rewrite H. apply IH.
Qed.

Lemma Play_gen_fold (filter : bool) (c : list Card) (he : HandEvaluator) :
  Play_gen filter c he
  = fold_left (and_then (play_front_fold filter (he c) c)) fronts (Some play_init).
Proof.
  unfold Play_gen.
  rewrite (for_next_fold _ _ _ _ _ _ fronts_enum) by (rewrite fronts_length; lia).
  apply fold_left_pointwise. intros acc fIdx.
  unfold and_then. apply option_bind_ext; [| reflexivity].
  intros st. apply play_front_eq.
Qed.

(** ** The fast paths [Eval3] and [Eval5] *)

Lemma wrap32_small (x : Z) : -2147483648 <= x < 2147483648 -> wrap32 x = x.
Proof.
  intros H. unfold wrap32. change 4294967295 with (Z.ones 32).
  rewrite Z.land_ones by lia. rewrite Z.mod_small by lia. lia.
Qed.

Lemma land63_range (c : Z) : 0 <= Z.land c 63 < 64.
Proof.
  change 63 with (Z.ones 6). rewrite Z.land_ones by lia.
  apply Z.mod_pos_bound. lia.
Qed.

Lemma suits_land (c0 c1 c2 c3 c4 : Z) :
  Z.land (Z.land (Z.land (Z.land (Z.land (Z.land 960 c0) c1) c2) c3) c4) 960
  = Z.land (Z.land (Z.land (Z.land (Z.land c0 c1) c2) c3) c4) 960.
Proof.
  rewrite <- !Z.land_assoc.
  rewrite (Z.land_comm 960). rewrite <- !Z.land_assoc. rewrite Z.land_diag.
  reflexivity.
Qed.

Lemma Eval5_Eval (c : list Card) : length c = 5%nat -> Eval5 c = Eval c.
Proof.
  intros Hlen.
  destruct c as [| c0 [| c1 [| c2 [| c3 [| c4 [| ? ?]]]]]]; try discriminate.
  unfold Eval5, Eval, index. cbn [fold_left index_step fst snd length].
  change ((5 =? 5)%nat) with true. cbn [andb].
  rewrite suits_land. rewrite Z.mul_1_l.
  rewrite (wrap32_small (Z.land c0 63)) by (pose proof (land63_range c0); lia).
  reflexivity.
Qed.

Lemma Eval3_Eval (c : list Card) : length c = 3%nat -> Eval3 c = Eval c.
Proof.
  intros Hlen.
  destruct c as [| c0 [| c1 [| c2 [| ? ?]]]]; try discriminate.
  unfold Eval3, Eval, index. cbn [fold_left index_step fst snd length].
  change ((3 =? 5)%nat) with false. cbn [andb].
  rewrite Z.mul_1_l.
  rewrite (wrap32_small (Z.land c0 63)) by (pose proof (land63_range c0); lia).
  reflexivity.
Qed.

(** On distinct deck cards the lookups return, with a rank in range. *)
Lemma Eval5_deck (c : list Card) :
  NoDup c -> (forall x, In x c -> In x Cards) -> length c = 5%nat ->
  exists v, Eval5 c = Some v /\ rank_range v.
Proof.
  intros Hnd Hdeck Hlen. rewrite Eval5_Eval by assumption.
  apply index_lookup_ok; auto.
Qed.

Lemma Eval3_deck (c : list Card) :
  NoDup c -> (forall x, In x c -> In x Cards) -> length c = 3%nat ->
  exists v, Eval3 c = Some v /\ rank_range v.
Proof.
  intros Hnd Hdeck Hlen. rewrite Eval3_Eval by assumption.
  apply index_lookup_ok; auto.
Qed.

(** ** The partitions enumerated by [Play] *)

Lemma read_at_fmap (g : Z -> Z) (c : list Z) (i : Z) :
  read_at (g <$> c) i = g <$> read_at c i.
Proof. unfold read_at. destruct (i <? 0); [reflexivity | apply list_lookup_fmap]. Qed.

Lemma set_at_fmap (g : Z -> Z) (a : list Z) (i x : Z) :
  set_at (g <$> a) i (g x) = fmap (M:=list) g <$> set_at a i x.
Proof.
  unfold set_at, update_at. destruct (i <? 0); [reflexivity |].
  rewrite list_lookup_fmap. destruct (a !! Z.to_nat i); [| reflexivity].
  cbn. rewrite list_fmap_insert. reflexivity.
Qed.

Lemma split_card_fmap (g : Z -> Z) (c : list Card) (fIdx bIdx : list Z)
    (st : option split_state) (i : Z) :
  split_card (g <$> c) fIdx bIdx (split_state_map g <$> st) i
  = split_state_map g <$> split_card c fIdx bIdx st i.
Proof.
  destruct st as [[f b back middle] |]; [| reflexivity].
  unfold split_card. cbn [fmap option_fmap option_map mbind option_bind
    split_state_map sp_f sp_b sp_back sp_middle].
  destruct ((f <? 3) && (at_ fIdx f =? i)); [reflexivity |].
  rewrite !read_at_fmap.
  destruct ((b <? 5) && (i =? at_ bIdx b + f + 1)).
  - destruct (read_at c i) as [ci |]; [| reflexivity].
    cbn [fmap option_fmap option_map mbind option_bind].
    rewrite set_at_fmap. destruct (set_at back b ci); reflexivity.
  - destruct (read_at c i) as [ci |]; [| reflexivity].
    cbn [fmap option_fmap option_map mbind option_bind].
    rewrite set_at_fmap. destruct (set_at middle (i - f - b) ci); reflexivity.
Qed.

(** The split is natural in the cards: it only moves them around. *)
Lemma split_from_fmap (g : Z -> Z) (back0 middle0 c : list Card) (fIdx bIdx : list Z) :
  split_from (g <$> back0) (g <$> middle0) (g <$> c) fIdx bIdx
  = prod_map (fmap (M:=list) g) (fmap (M:=list) g)
      <$> split_from back0 middle0 c fIdx bIdx.
Proof.
  unfold split_from.
  change (Some (mkSplit 0 0 (g <$> back0) (g <$> middle0)))
    with (split_state_map g <$> Some (mkSplit 0 0 back0 middle0)).
  generalize (Some (mkSplit 0 0 back0 middle0)).
  generalize (seqZ 0 13). intros l. induction l as [| i l IH]; intros st.
  - destruct st; reflexivity.
  - cbn [fold_left]. rewrite split_card_fmap. apply IH.
Qed.

Lemma card_at_idx13 (c : list Card) : length c = 13%nat -> card_at c <$> idx13 = c.
Proof.
  intros H.
  do 13 (destruct c as [| ? c]; [discriminate H |]).
  destruct c; [reflexivity | discriminate H].
Qed.

Lemma partitions_ok :
  forallb (fun fIdx => forallb (fun bIdx => partition_ok fIdx bIdx) backs) fronts = true.
Proof. vm_compute. reflexivity. Qed.

(** Every enumerated partition deals the 13 cards into three lanes. *)
Lemma split_lanes (c : list Card) (fIdx bIdx : list Z) :
  length c = 13%nat -> In fIdx fronts -> In bIdx backs ->
  exists c0 c1 c2 back middle,
    read_at c (at_ fIdx 0) = Some c0
    /\ read_at c (at_ fIdx 1) = Some c1
    /\ read_at c (at_ fIdx 2) = Some c2
    /\ split_cards c fIdx bIdx = Some (back, middle)
    /\ Permutation ([c0; c1; c2] ++ middle ++ back) c
    /\ length back = 5%nat /\ length middle = 5%nat.
Proof.
  intros Hlen Hf Hb.
  pose proof partitions_ok as P.
  use_forallb P fIdx. specialize (P Hf).
  use_forallb P bIdx. specialize (P Hb).
  unfold partition_ok in P.
  destruct (split_from (replicate 5 (-1)) (replicate 5 (-1)) idx13 fIdx bIdx)
    as [[bi mi] |] eqn:Es; [| discriminate P].
  apply andb_true_iff in P as [P Lm]. apply andb_true_iff in P as [P Lb].
  apply bool_decide_eq_true in P. apply Nat.eqb_eq in Lm, Lb.
  assert (Hperm : Permutation ([at_ fIdx 0; at_ fIdx 1; at_ fIdx 2] ++ mi ++ bi) idx13).
  { rewrite <- P. symmetry. apply merge_sort_Permutation. }
  assert (Hread : forall i, In i [at_ fIdx 0; at_ fIdx 1; at_ fIdx 2] ->
                            read_at c i = Some (card_at c i)).
  { intros i Hi.
    assert (Hin : In i idx13).
    { apply (Permutation_in _ Hperm). apply in_or_app. left. exact Hi. }
    do 13 (destruct c as [| ? c]; [discriminate Hlen |]).
    destruct c; [| discriminate Hlen].
    simpl in Hin.
    repeat (destruct Hin as [<- | Hin]; [reflexivity |]). contradiction. }
  exists (card_at c (at_ fIdx 0)), (card_at c (at_ fIdx 1)), (card_at c (at_ fIdx 2)),
    (card_at c <$> bi), (card_at c <$> mi).
  split; [apply Hread; left; reflexivity |].
  split; [apply Hread; right; left; reflexivity |].
  split; [apply Hread; right; right; left; reflexivity |].
  split; [| split; [| split]].
  - pose proof (split_from_fmap (card_at c) (replicate 5 (-1)) (replicate 5 (-1))
                  idx13 fIdx bIdx) as Hn.
    rewrite (card_at_idx13 c Hlen), Es in Hn. exact Hn.
  - pose proof (fmap_Permutation (card_at c) _ _ Hperm) as Hp.
    rewrite (card_at_idx13 c Hlen) in Hp. rewrite !fmap_app in Hp. exact Hp.
  - rewrite length_fmap. exact Lb.
  - rewrite length_fmap. exact Lm.
Qed.

(** ** The selection of the best hand *)

Lemma select_app (l : list (Hand * Q)) (x : Hand * Q) :
  select (l ++ [x]) = select_step (select l) x.
Proof. unfold select. rewrite fold_left_app. reflexivity. Qed.

(** The selected hand is the zero hand when every score is below the
    initial [bestEV], and otherwise the last partition whose score is
    maximal. *)
Lemma select_spec (l : list (Hand * Q)) :
  (bestEV_init <= snd (select l))%Q
  /\ (forall x, In x l -> (snd x <= snd (select l))%Q)
  /\ ((select l = (Hand_zero, bestEV_init)
       /\ forall x, In x l -> (snd x < bestEV_init)%Q)
      \/ (exists pre post,
            l = pre ++ select l :: post
            /\ (forall x, In x pre -> (snd x <= snd (select l))%Q)
            /\ (forall x, In x post -> (snd x < snd (select l))%Q))).
Proof.
  induction l as [| x l IH] using rev_ind.
  - split; [apply Qle_refl |]. split; [intros x [] |].
    left. split; [reflexivity | intros x []].
  - destruct IH as (Hinit & Hmax & Hcase).
    rewrite select_app. unfold select_step.
    destruct (Qle_bool (snd (select l)) (snd x)) eqn:E.
    + apply Qle_bool_iff in E.
      split; [eapply Qle_trans; eassumption |].
      split.
      * intros y Hy. apply in_app_or in Hy as [Hy | [<- | []]].
        -- eapply Qle_trans; [apply Hmax, Hy | exact E].
        -- apply Qle_refl.
      * right. exists l, []. split; [reflexivity |].
        split; [| intros y []].
        intros y Hy. eapply Qle_trans; [apply Hmax, Hy | exact E].
    + assert (Hlt : (snd x < snd (select l))%Q).
      { apply Qnot_le_lt. intros H. apply Qle_bool_iff in H. congruence. }
      split; [exact Hinit |].
      split.
      * intros y Hy. apply in_app_or in Hy as [Hy | [<- | []]].
        -- apply Hmax, Hy.
        -- apply Qlt_le_weak, Hlt.
      * destruct Hcase as [[Hz Hall] | (pre & post & Hl & Hpre & Hpost)].
        -- left. split; [exact Hz |].
           intros y Hy. apply in_app_or in Hy as [Hy | [<- | []]].
           ++ apply Hall, Hy.
           ++ rewrite Hz in Hlt. exact Hlt.
        -- right. exists pre, (post ++ [x]). split.
           ++ rewrite Hl at 1. rewrite <- app_assoc. reflexivity.
           ++ split; [exact Hpre |].
              intros y Hy. apply in_app_or in Hy as [Hy | [<- | []]].
              ** apply Hpost, Hy.
              ** exact Hlt.
Qed.

(** ** The dominance filter *)

Lemma In_insert_take {A : Type} (l : list A) (i n : nat) (y x : A) :
  In y l -> In x (take n (<[i := y]> l)) -> In x l.
Proof.
  intros Hy Hx. apply list_elem_of_In in Hx. apply list_elem_of_In.
  apply subseteq_take in Hx. apply list_elem_of_lookup in Hx as [j Hj].
  apply list_lookup_insert_Some in Hj as [(_ & <- & _) | (_ & Hj)].
  - apply list_elem_of_In. exact Hy.
  - apply list_elem_of_lookup. eauto.
Qed.

(** The loop only removes triples, and it reports a domination only
    when a retained triple is at least the new one in each lane. *)
Lemma dominance_loop_spec (todo i : nat) (ef sem seb : Z) (maxima : list (Z * Z * Z)) :
  (forall m, In m (snd (dominance_loop todo i ef sem seb maxima)) -> In m maxima)
  /\ (fst (dominance_loop todo i ef sem seb maxima) = true ->
      exists m, In m maxima /\ dominates m ef sem seb = true).
Proof.
  revert i maxima. induction todo as [| todo IH]; intros i maxima.
  - simpl. split; [auto | discriminate].
  - cbn [dominance_loop].
    destruct (maxima !! i) as [m |] eqn:Em; [| simpl; split; [auto | discriminate]].
    assert (Hm : In m maxima).
    { apply list_elem_of_In. apply list_elem_of_lookup. eauto. }
    destruct (dominates m ef sem seb) eqn:Ed.
    + simpl. split; [auto | eauto].
    + destruct (dominated_by m ef sem seb).
      * destruct (maxima !! (length maxima - 1)%nat) as [last |] eqn:El.
        -- assert (Hlast : In last maxima).
           { apply list_elem_of_In. apply list_elem_of_lookup. eauto. }
           destruct (IH (S i) (take (length maxima - 1) (<[i := last]> maxima)))
             as [IH1 IH2].
           split.
           ++ intros x Hx. apply IH1 in Hx. eapply In_insert_take; eassumption.
           ++ intros Hd. destruct (IH2 Hd) as (x & Hx & Hdx).
              exists x. split; [eapply In_insert_take; eassumption | exact Hdx].
        -- apply IH.
      * apply IH.
Qed.

(** ** One partition *)

(** What [play_candidate] does to the state: either the partition is
    scored, or (with the filter only) it is dropped because a retained
    triple dominates it. *)
Lemma play_candidate_cases (filter : bool) (evaluator : Z -> Z -> Z -> Q)
    (hand : Hand) (ef sem seb : Z) (st : play_state) :
  let st' := play_candidate filter evaluator hand ef sem seb st in
  (ps_scored st' = (hand, evaluator ef sem seb) :: ps_scored st
   /\ (ps_best st', ps_bestEV st')
      = select_step (ps_best st, ps_bestEV st) (hand, evaluator ef sem seb)
   /\ Hands (ps_stats st') = Hands (ps_stats st) + 1
   /\ (forall m, In m (ps_maxima st') -> In m (ps_maxima st) \/ m = (ef, sem, seb)))
  \/ (filter = true
      /\ ps_scored st' = ps_scored st
      /\ ps_best st' = ps_best st /\ ps_bestEV st' = ps_bestEV st
      /\ ps_stats st' = ps_stats st
      /\ (forall m, In m (ps_maxima st') -> In m (ps_maxima st))
      /\ exists m, In m (ps_maxima st) /\ dominates m ef sem seb = true).
Proof.
  unfold play_candidate.
  assert (Hscore : forall maxima2 : list (Z * Z * Z),
    (forall m, In m maxima2 -> In m (ps_maxima st) \/ m = (ef, sem, seb)) ->
    let st' :=
      if Qle_bool (ps_bestEV st) (evaluator ef sem seb)
      then mkPlay maxima2 hand (evaluator ef sem seb)
             (mkStats (Hands (ps_stats st) + 1) (StrongFront (ps_stats st))
                (BackEqualsMiddle (ps_stats st)))
             ((hand, evaluator ef sem seb) :: ps_scored st)
      else mkPlay maxima2 (ps_best st) (ps_bestEV st)
             (mkStats (Hands (ps_stats st) + 1) (StrongFront (ps_stats st))
                (BackEqualsMiddle (ps_stats st)))
             ((hand, evaluator ef sem seb) :: ps_scored st) in
    ps_scored st' = (hand, evaluator ef sem seb) :: ps_scored st
    /\ (ps_best st', ps_bestEV st')
       = select_step (ps_best st, ps_bestEV st) (hand, evaluator ef sem seb)
    /\ Hands (ps_stats st') = Hands (ps_stats st) + 1
    /\ (forall m, In m (ps_maxima st') -> In m (ps_maxima st) \/ m = (ef, sem, seb))).
  { intros maxima2 Hm. unfold select_step. cbn [fst snd].
    destruct (Qle_bool (ps_bestEV st) (evaluator ef sem seb)); cbn;
      repeat split; assumption. }
  destruct filter.
  - destruct (dominance_loop_spec (length (ps_maxima st)) 0 ef sem seb (ps_maxima st))
      as [Hsub Hdom].
    destruct (dominance_loop (length (ps_maxima st)) 0 ef sem seb (ps_maxima st))
      as [dominated maxima1] eqn:Ed.
    cbn [fst snd] in Hsub, Hdom.
    destruct dominated.
    + right. cbn. repeat split; auto.
    + left. cbn [andb]. apply Hscore.
      intros m Hm.
      destruct (Z.of_nat (length maxima1) <? maxima_cap).
      * apply in_app_or in Hm as [Hm | [<- | []]]; auto.
      * auto.
  - left. cbn [andb]. apply Hscore. auto.
Qed.

(** The lanes of an enumerated partition of a deal, with their ranks. *)
Lemma partition_data (c : list Card) (fIdx bIdx : list Z) :
  deal c -> In fIdx fronts -> In bIdx backs ->
  exists c0 c1 c2 back middle ef eb em,
    read_at c (at_ fIdx 0) = Some c0
    /\ read_at c (at_ fIdx 1) = Some c1
    /\ read_at c (at_ fIdx 2) = Some c2
    /\ split_cards c fIdx bIdx = Some (back, middle)
    /\ Permutation ([c0; c1; c2] ++ middle ++ back) c
    /\ length back = 5%nat /\ length middle = 5%nat
    /\ Eval3 [c0; c1; c2] = Some ef /\ Eval5 back = Some eb /\ Eval5 middle = Some em
    /\ rank_range ef /\ rank_range eb /\ rank_range em.
Proof.
  intros (Hnd & Hdeck & Hlen) Hf Hb.
  destruct (split_lanes c fIdx bIdx Hlen Hf Hb)
    as (c0 & c1 & c2 & back & middle & R0 & R1 & R2 & Hs & Hperm & Lb & Lm).
  assert (Hnd' : NoDup ([c0; c1; c2] ++ middle ++ back)).
  { rewrite Hperm. exact Hnd. }
  assert (Hin : forall x, In x ([c0; c1; c2] ++ middle ++ back) -> In x Cards).
  { intros x Hx. apply Hdeck. eapply Permutation_in; eassumption. }
  apply NoDup_app in Hnd' as (Hnf & _ & Hnmb).
  apply NoDup_app in Hnmb as (Hnm & _ & Hnb).
  destruct (Eval3_deck [c0; c1; c2]) as (ef & Ef & Rf); [exact Hnf | | reflexivity |].
  { intros x Hx. apply Hin. apply in_or_app. left. exact Hx. }
  destruct (Eval5_deck back) as (eb & Eb & Rb); [exact Hnb | | exact Lb |].
  { intros x Hx. apply Hin. apply in_or_app. right. apply in_or_app. right. exact Hx. }
  destruct (Eval5_deck middle) as (em & Em & Rm); [exact Hnm | | exact Lm |].
  { intros x Hx. apply Hin. apply in_or_app. right. apply in_or_app. left. exact Hx. }
  exists c0, c1, c2, back, middle, ef, eb, em.
  exact (conj R0 (conj R1 (conj R2 (conj Hs (conj Hperm (conj Lb (conj Lm
    (conj Ef (conj Eb (conj Em (conj Rf (conj Rb Rm)))))))))))).
Qed.

Lemma Permutation_swap_lanes (front middle back c : list Card) :
  Permutation (front ++ middle ++ back) c -> Permutation (front ++ back ++ middle) c.
Proof.
  intros H. rewrite <- H. apply Permutation_app_head. apply Permutation_app_comm.
Qed.

(** A ranked partition is either rejected (foul or tie), whatever the
    state, or it is a candidate: a hand in canonical order, which the
    rest of the body handles. *)
Lemma play_ranked_candidate (evaluator : Z -> Z -> Z -> Q)
    (c front back middle : list Card) (ef eb em : Z) :
  ranked_lanes c front back middle ef eb em ->
  (forall filter st,
     same_selection st (play_ranked filter evaluator front back middle ef eb em st))
  \/ (exists hand sem seb,
        scored_ok evaluator c (hand, evaluator ef sem seb)
        /\ hand_ranks hand = Some (ef, sem, seb)
        /\ forall filter st,
             play_ranked filter evaluator front back middle ef eb em st
             = play_candidate filter evaluator hand ef sem seb st).
Proof.
  intros (Hperm & Lf & Lb & Lm & Ef & Eb & Em & Rf & Rb & Rm).
  unfold play_ranked.
  destruct ((ef >=? em) || (ef >=? eb)) eqn:Efoul.
  { left. intros filter st. repeat split. }
  destruct (em =? eb) eqn:Etie.
  { left. intros filter st. repeat split. }
  apply orb_false_iff in Efoul as [F1 F2].
  rewrite Z.geb_leb in F1, F2. apply Z.leb_gt in F1, F2. apply Z.eqb_neq in Etie.
  right. destruct (em >? eb) eqn:Egt.
  - assert (eb < em) by (apply Z.gtb_lt; exact Egt).
    exists (mkHand front back middle), eb, em.
    split; [| split; [| reflexivity]].
    + split.
      * repeat split; cbn [fst Front Middle Back]; try assumption.
        apply Permutation_swap_lanes. exact Hperm.
      * exists ef, eb, em. cbn [fst snd]. unfold hand_ranks.
        cbn [Front Middle Back]. rewrite Ef, Eb, Em.
        repeat split; try assumption; try apply Rf; try apply Rb; try apply Rm.
    + unfold hand_ranks. cbn [Front Middle Back]. rewrite Ef, Eb, Em. reflexivity.
  - assert (em < eb).
    { destruct (Z.gtb_spec em eb); [discriminate | lia]. }
    exists (mkHand front middle back), em, eb.
    split; [| split; [| reflexivity]].
    + split.
      * repeat split; cbn [fst Front Middle Back]; assumption.
      * exists ef, em, eb. cbn [fst snd]. unfold hand_ranks.
        cbn [Front Middle Back]. rewrite Ef, Eb, Em.
        repeat split; try assumption; try apply Rf; try apply Rb; try apply Rm.
    + unfold hand_ranks. cbn [Front Middle Back]. rewrite Ef, Eb, Em. reflexivity.
Qed.

Lemma same_selection_inv (evaluator : Z -> Z -> Z -> Q) (c : list Card)
    (st st' : play_state) :
  same_selection st st' -> play_inv evaluator c st -> play_inv evaluator c st'.
Proof.
  intros (Hs & Hb & He & Hm & Hh) (I1 & I2 & I3 & I4).
  unfold play_inv. rewrite Hs, Hb, He, Hm, Hh. auto.
Qed.

Lemma play_candidate_inv (filter : bool) (evaluator : Z -> Z -> Z -> Q)
    (c : list Card) (hand : Hand) (ef sem seb : Z) (st : play_state) :
  scored_ok evaluator c (hand, evaluator ef sem seb) ->
  hand_ranks hand = Some (ef, sem, seb) ->
  play_inv evaluator c st ->
  play_inv evaluator c (play_candidate filter evaluator hand ef sem seb st).
Proof.
  intros Hok Hranks (I1 & I2 & I3 & I4).
  destruct (play_candidate_cases filter evaluator hand ef sem seb st)
    as [(Hs & Hsel & Hh & Hm) | (_ & Hs & Hb & He & Hst & Hm & _)].
  - unfold play_inv. rewrite Hs, Hsel, Hh, I1, I3. cbn [rev length].
    split; [symmetry; apply select_app |].
    split; [constructor; assumption |].
    split; [lia |].
    apply List.Forall_forall. intros m Hin.
    destruct (Hm m Hin) as [Hold | ->].
    + rewrite List.Forall_forall in I4. destruct (I4 m Hold) as (x & Hx & Hr).
      exists x. split; [right; exact Hx | exact Hr].
    + exists (hand, evaluator ef sem seb). split; [left; reflexivity | exact Hranks].
  - unfold play_inv. rewrite Hs, Hb, He, Hst.
    split; [exact I1 |]. split; [exact I2 |]. split; [exact I3 |].
    apply List.Forall_forall. intros m Hin.
    rewrite List.Forall_forall in I4. apply I4, Hm, Hin.
Qed.

Lemma play_candidate_rel (evaluator : Z -> Z -> Z -> Q) (c : list Card)
    (hand : Hand) (ef sem seb : Z) (stf stu : play_state) :
  monotone_scorer evaluator ->
  scored_ok evaluator c (hand, evaluator ef sem seb) ->
  hand_ranks hand = Some (ef, sem, seb) ->
  play_inv evaluator c stf ->
  play_rel stf stu ->
  play_rel (play_candidate true evaluator hand ef sem seb stf)
           (play_candidate false evaluator hand ef sem seb stu).
Proof.
  intros Hmono Hok Hranks (_ & I2 & _ & I4) [R1 R2].
  destruct (play_candidate_cases false evaluator hand ef sem seb stu)
    as [(Hsu & _) | (Hfalse & _)]; [| discriminate Hfalse].
  destruct (play_candidate_cases true evaluator hand ef sem seb stf)
    as [(Hsf & _) | (_ & Hsf & _ & _ & _ & _ & (m & Hm & Hdom))].
  - split; rewrite Hsu, Hsf.
    + intros x [<- | Hx]; [left; reflexivity | right; apply R1, Hx].
    + intros x [<- | Hx].
      * exists (hand, evaluator ef sem seb). split; [left; reflexivity | apply Qle_refl].
      * destruct (R2 x Hx) as (y & Hy & Hle). exists y. split; [right; exact Hy | exact Hle].
  - split; rewrite Hsu, Hsf.
    + intros x Hx. right. apply R1, Hx.
    + intros x [<- | Hx]; [| apply R2, Hx].
      rewrite List.Forall_forall in I2, I4.
      destruct (I4 m Hm) as (z & Hz & Hzr).
      destruct (I2 z Hz) as (_ & zf & zm & zb & Hzr' & Zf & Zm & Zb & _ & _ & _ & Hzv).
      rewrite Hzr in Hzr'. injection Hzr' as ->.
      destruct Hok as (_ & f' & m' & b' & Hr' & Cf & Cm & Cb & _ & _ & _ & _).
      cbn [fst] in Hr'. rewrite Hranks in Hr'. injection Hr' as <- <- <-.
      unfold dominates in Hdom. cbn [fst snd] in Hdom.
      apply andb_true_iff in Hdom as [Hdom D3]. apply andb_true_iff in Hdom as [D1 D2].
      apply Z.geb_le in D1, D2, D3.
      exists z. split; [exact Hz |]. cbn [snd]. rewrite Hzv.
      apply Hmono; assumption.
Qed.

(** ** The whole enumeration *)

Lemma fold_and_then_inv {I St : Type} (P : St -> Prop)
    (body : I -> St -> option St) (l : list I) (s : St) :
  P s ->
  (forall i s, In i l -> P s -> exists s', body i s = Some s' /\ P s') ->
  exists s', fold_left (and_then body) l (Some s) = Some s' /\ P s'.
Proof.
  revert s. induction l as [| i l IH]; intros s Hs Hstep.
  - exists s. split; [reflexivity | exact Hs].
  - destruct (Hstep i s (or_introl eq_refl) Hs) as (s1 & E1 & H1).
    cbn [fold_left]. unfold and_then at 2. cbn [mbind option_bind]. rewrite E1.
    apply IH; [exact H1 |].
    intros j s2 Hj. apply Hstep. right. exact Hj.
Qed.

Lemma fold_and_then_rel {I St : Type} (R : St -> St -> Prop)
    (f g : I -> St -> option St) (l : list I) (a b : St) :
  R a b ->
  (forall i a b, In i l -> R a b ->
     exists a' b', f i a = Some a' /\ g i b = Some b' /\ R a' b') ->
  exists a' b',
    fold_left (and_then f) l (Some a) = Some a'
    /\ fold_left (and_then g) l (Some b) = Some b' /\ R a' b'.
Proof.
  revert a b. induction l as [| i l IH]; intros a b Hab Hstep.
  - exists a, b. auto.
  - destruct (Hstep i a b (or_introl eq_refl) Hab) as (a1 & b1 & Ea & Eb & H1).
    cbn [fold_left]. unfold and_then at 2 4. cbn [mbind option_bind].
    rewrite Ea, Eb. apply IH; [exact H1 |].
    intros j a2 b2 Hj. apply Hstep. right. exact Hj.
Qed.

Lemma bind_Some_eq {A B : Type} (x : A) (f : A -> option B) : Some x ≫= f = f x.
Proof. reflexivity. Qed.

(** The body of the inner loop on an enumerated partition of a deal. *)
Lemma play_partition_ranked (evaluator : Z -> Z -> Z -> Q) (c : list Card)
    (fIdx bIdx : list Z) (c0 c1 c2 : Card) (ef : Z) :
  deal c -> In fIdx fronts -> In bIdx backs ->
  read_at c (at_ fIdx 0) = Some c0 ->
  read_at c (at_ fIdx 1) = Some c1 ->
  read_at c (at_ fIdx 2) = Some c2 ->
  Eval3 [c0; c1; c2] = Some ef ->
  exists back middle eb em,
    ranked_lanes c [c0; c1; c2] back middle ef eb em
    /\ forall filter st,
         play_partition filter evaluator c fIdx [c0; c1; c2] ef bIdx st
         = Some (play_ranked filter evaluator [c0; c1; c2] back middle ef eb em st).
Proof.
  intros Hdeal Hf Hb R0 R1 R2 Ef.
  destruct (partition_data c fIdx bIdx Hdeal Hf Hb)
    as (c0' & c1' & c2' & back & middle & ef' & eb & em
        & R0' & R1' & R2' & Hs & Hperm & Lb & Lm & Ef' & Eb & Em & Rf & Rb & Rm).
  rewrite R0 in R0'. injection R0' as <-.
  rewrite R1 in R1'. injection R1' as <-.
  rewrite R2 in R2'. injection R2' as <-.
  rewrite Ef in Ef'. injection Ef' as <-.
  exists back, middle, eb, em. split.
  - exact (conj Hperm (conj eq_refl (conj Lb (conj Lm
      (conj Ef (conj Eb (conj Em (conj Rf (conj Rb Rm))))))))).
  - intros filter st. unfold play_partition.
    rewrite Hs, bind_Some_eq, Eb, bind_Some_eq, Em, bind_Some_eq. reflexivity.
Qed.

Lemma play_partition_inv (filter : bool) (evaluator : Z -> Z -> Z -> Q) (c : list Card)
    (fIdx bIdx : list Z) (c0 c1 c2 : Card) (ef : Z) (st : play_state) :
  deal c -> In fIdx fronts -> In bIdx backs ->
  read_at c (at_ fIdx 0) = Some c0 ->
  read_at c (at_ fIdx 1) = Some c1 ->
  read_at c (at_ fIdx 2) = Some c2 ->
  Eval3 [c0; c1; c2] = Some ef ->
  play_inv evaluator c st ->
  exists st',
    play_partition filter evaluator c fIdx [c0; c1; c2] ef bIdx st = Some st'
    /\ play_inv evaluator c st'.
Proof.
  intros Hdeal Hf Hb R0 R1 R2 Ef Hinv.
  destruct (play_partition_ranked evaluator c fIdx bIdx c0 c1 c2 ef
              Hdeal Hf Hb R0 R1 R2 Ef) as (back & middle & eb & em & Hl & Hp).
  rewrite Hp. eexists. split; [reflexivity |].
  destruct (play_ranked_candidate evaluator c _ _ _ _ _ _ Hl)
    as [Hsame | (hand & sem & seb & Hok & Hr & Hc)].
  - eapply same_selection_inv; [apply Hsame | exact Hinv].
  - rewrite Hc. apply play_candidate_inv; assumption.
Qed.

Lemma play_partition_rel (evaluator : Z -> Z -> Z -> Q) (c : list Card)
    (fIdx bIdx : list Z) (c0 c1 c2 : Card) (ef : Z) (stf stu : play_state) :
  monotone_scorer evaluator ->
  deal c -> In fIdx fronts -> In bIdx backs ->
  read_at c (at_ fIdx 0) = Some c0 ->
  read_at c (at_ fIdx 1) = Some c1 ->
  read_at c (at_ fIdx 2) = Some c2 ->
  Eval3 [c0; c1; c2] = Some ef ->
  play_both evaluator c stf stu ->
  exists stf' stu',
    play_partition true evaluator c fIdx [c0; c1; c2] ef bIdx stf = Some stf'
    /\ play_partition false evaluator c fIdx [c0; c1; c2] ef bIdx stu = Some stu'
    /\ play_both evaluator c stf' stu'.
Proof.
  intros Hmono Hdeal Hf Hb R0 R1 R2 Ef (If & Iu & Hrel).
  destruct (play_partition_ranked evaluator c fIdx bIdx c0 c1 c2 ef
              Hdeal Hf Hb R0 R1 R2 Ef) as (back & middle & eb & em & Hl & Hp).
  rewrite !Hp. eexists. eexists. split; [reflexivity |]. split; [reflexivity |].
  destruct (play_ranked_candidate evaluator c _ _ _ _ _ _ Hl)
    as [Hsame | (hand & sem & seb & Hok & Hr & Hc)].
  - split; [eapply same_selection_inv; [apply Hsame | exact If] |].
    split; [eapply same_selection_inv; [apply Hsame | exact Iu] |].
    destruct (Hsame true stf) as (Sf & _). destruct (Hsame false stu) as (Su & _).
    destruct Hrel as [R1' R2']. split; rewrite Sf, Su; assumption.
  - rewrite !Hc.
    split; [apply play_candidate_inv; assumption |].
    split; [apply play_candidate_inv; assumption |].
    eapply play_candidate_rel; eassumption.
Qed.

Lemma backs_inhabited : exists bIdx, In bIdx backs.
Proof.
  pose proof backs_length as H.
  destruct backs as [| b l]; [discriminate H | exists b; left; reflexivity].
Qed.

Lemma play_front_fold_some (filter : bool) (evaluator : Z -> Z -> Z -> Q)
    (c : list Card) (fIdx : list Z) (st : play_state) (c0 c1 c2 : Card) (ef : Z) :
  read_at c (at_ fIdx 0) = Some c0 ->
  read_at c (at_ fIdx 1) = Some c1 ->
  read_at c (at_ fIdx 2) = Some c2 ->
  Eval3 [c0; c1; c2] = Some ef ->
  play_front_fold filter evaluator c fIdx st
  = fold_left (and_then (play_partition filter evaluator c fIdx [c0; c1; c2] ef))
      backs (Some st).
Proof.
  intros R0 R1 R2 Ef. unfold play_front_fold.
  rewrite R0, bind_Some_eq, R1, bind_Some_eq, R2, bind_Some_eq, Ef, bind_Some_eq.
  reflexivity.
Qed.

Lemma play_front_inv (filter : bool) (evaluator : Z -> Z -> Z -> Q) (c : list Card)
    (fIdx : list Z) (st : play_state) :
  deal c -> In fIdx fronts -> play_inv evaluator c st ->
  exists st',
    play_front_fold filter evaluator c fIdx st = Some st' /\ play_inv evaluator c st'.
Proof.
  intros Hdeal Hf Hinv.
  destruct backs_inhabited as [b0 Hb0].
  destruct (partition_data c fIdx b0 Hdeal Hf Hb0)
    as (c0 & c1 & c2 & back & middle & ef & eb & em
        & R0 & R1 & R2 & Hs & Hp & Lb & Lm & Ef & Hrest).
  rewrite (play_front_fold_some filter evaluator c fIdx st c0 c1 c2 ef R0 R1 R2 Ef).
  apply fold_and_then_inv; [exact Hinv |].
  intros bIdx s Hb Hs'.
  exact (play_partition_inv filter evaluator c fIdx bIdx c0 c1 c2 ef s
           Hdeal Hf Hb R0 R1 R2 Ef Hs').
Qed.

Lemma play_front_rel (evaluator : Z -> Z -> Z -> Q) (c : list Card)
    (fIdx : list Z) (stf stu : play_state) :
  monotone_scorer evaluator ->
  deal c -> In fIdx fronts -> play_both evaluator c stf stu ->
  exists stf' stu',
    play_front_fold true evaluator c fIdx stf = Some stf'
    /\ play_front_fold false evaluator c fIdx stu = Some stu'
    /\ play_both evaluator c stf' stu'.
Proof.
  intros Hmono Hdeal Hf Hboth.
  destruct backs_inhabited as [b0 Hb0].
  destruct (partition_data c fIdx b0 Hdeal Hf Hb0)
    as (c0 & c1 & c2 & back & middle & ef & eb & em
        & R0 & R1 & R2 & Hs & Hp & Lb & Lm & Ef & Hrest).
  rewrite (play_front_fold_some true evaluator c fIdx stf c0 c1 c2 ef R0 R1 R2 Ef).
  rewrite (play_front_fold_some false evaluator c fIdx stu c0 c1 c2 ef R0 R1 R2 Ef).
  apply (fold_and_then_rel (play_both evaluator c)); [exact Hboth |].
  intros bIdx a b Hb Hab.
  exact (play_partition_rel evaluator c fIdx bIdx c0 c1 c2 ef a b
           Hmono Hdeal Hf Hb R0 R1 R2 Ef Hab).
Qed.

Lemma play_init_inv (evaluator : Z -> Z -> Z -> Q) (c : list Card) :
  play_inv evaluator c play_init.
Proof.
  unfold play_inv, play_init. cbn [ps_best ps_bestEV ps_scored ps_stats ps_maxima].
  split; [reflexivity |]. split; [constructor |]. split; [reflexivity | constructor].
Qed.

(** On a deal [Play] runs to its end, with or without the filter, and
    the invariant holds at the end. *)
Lemma Play_gen_inv (filter : bool) (c : list Card) (he : HandEvaluator) :
  deal c ->
  exists st, Play_gen filter c he = Some st /\ play_inv (he c) c st.
Proof.
  intros Hdeal. rewrite Play_gen_fold.
  apply fold_and_then_inv; [apply play_init_inv |].
  intros fIdx s Hf Hs. apply play_front_inv; assumption.
Qed.

Lemma Play_gen_rel (c : list Card) (he : HandEvaluator) :
  monotone_scorer (he c) -> deal c ->
  exists stf stu,
    Play_gen true c he = Some stf /\ Play_gen false c he = Some stu
    /\ play_both (he c) c stf stu.
Proof.
  intros Hmono Hdeal. rewrite !Play_gen_fold.
  apply (fold_and_then_rel (play_both (he c) c)).
  - split; [apply play_init_inv |]. split; [apply play_init_inv |].
    split; [auto |]. intros x [].
  - intros fIdx a b Hf Hab. apply play_front_rel; assumption.
Qed.

(** ** The hand chosen by [Play] *)

Lemma dealb_deal (c : list Card) : dealb c = true -> deal c.
Proof.
  unfold dealb. intros H.
  apply andb_true_iff in H as [H Hlen]. apply andb_true_iff in H as [Hnd Hin].
  split; [apply distinctb_true, Hnd |]. split; [| apply Nat.eqb_eq, Hlen].
  intros x Hx. rewrite forallb_forall in Hin. specialize (Hin x Hx).
  apply existsb_exists in Hin as (y & Hy & Heq). apply Z.eqb_eq in Heq. subst y.
  exact Hy.
Qed.

Lemma scored_ok_legal (evaluator : Z -> Z -> Z -> Q) (c : list Card) (x : Hand * Q) :
  scored_ok evaluator c x ->
  lanes_of c (fst x) /\ foul_free (fst x) /\ hand_value evaluator (fst x) = Some (snd x).
Proof.
  intros (Hl & ef & em & eb & Hr & _ & _ & _ & H1 & H2 & H3 & Hv).
  split; [exact Hl |]. split.
  - exists ef, em, eb. repeat split; try assumption. lia.
  - unfold hand_value. rewrite Hr, Hv. reflexivity.
Qed.

Lemma Play_of_gen (filter : bool) (c : list Card) (he : HandEvaluator) (st : play_state) :
  Play_gen filter c he = Some st ->
  (if filter then Play c he else Play_unfiltered c he)
  = Some (ps_best st, ps_stats st).
Proof.
  intros H. destruct filter; unfold Play, Play_unfiltered; rewrite H; reflexivity.
Qed.

(** The selected pair is one of the scored partitions unless every
    score is below the initial [bestEV]. *)
Lemma play_inv_best (evaluator : Z -> Z -> Z -> Q) (c : list Card) (st : play_state) :
  play_inv evaluator c st ->
  (ps_best st = Hand_zero
   /\ forall x, In x (ps_scored st) -> (snd x < bestEV_init)%Q)
  \/ (In (ps_best st, ps_bestEV st) (ps_scored st)
      /\ (bestEV_init <= ps_bestEV st)%Q
      /\ forall x, In x (ps_scored st) -> (snd x <= ps_bestEV st)%Q).
Proof.
  intros (I1 & _).
  destruct (select_spec (rev (ps_scored st))) as (Hinit & Hmax & Hcase).
  rewrite <- I1 in *. cbn [snd] in *.
  destruct Hcase as [[Hz Hall] | (pre & post & Hl & _)].
  - left. injection Hz as Hz _. split; [exact Hz |].
    intros x Hx. apply Hall. apply in_rev in Hx. exact Hx.
  - right. split; [| split; [exact Hinit |]].
    + apply in_rev. rewrite Hl. apply in_or_app. right. left. reflexivity.
    + intros x Hx. apply Hmax. apply in_rev in Hx. exact Hx.
Qed.

(** X2: on a deal of 13 distinct cards [Play] returns, and its hand is
    either the zero hand or a partition of the 13 cards into 3, 5 and 5
    cards with rank(front) < rank(middle), rank(front) < rank(back) and
    rank(middle) <> rank(back).  It is such a partition as soon as one
    partition was scored and the evaluator never goes below the initial
    best value -9999999.9. *)
Theorem Play_hand_legal_or_zero (c : list Card) (he : HandEvaluator) :
  deal c ->
  exists h stats,
    Play c he = Some (h, stats)
    /\ (h = Hand_zero \/ (lanes_of c h /\ foul_free h))
    /\ ((forall f m b, (bestEV_init <= he c f m b)%Q) -> 0 < Hands stats ->
        lanes_of c h /\ foul_free h).
Proof.
  intros Hdeal.
  destruct (Play_gen_inv true c he Hdeal) as (st & Hst & Hinv).
  exists (ps_best st), (ps_stats st).
  split; [exact (Play_of_gen true c he st Hst) |].
  pose proof Hinv as (_ & I2 & I3 & _).
  rewrite List.Forall_forall in I2.
  destruct (play_inv_best _ _ _ Hinv) as [[Hz Hall] | (Hin & _)].
  - split; [left; exact Hz |].
    intros Hge Hpos. exfalso.
    destruct (ps_scored st) as [| x l] eqn:El; [cbn in I3; lia |].
    destruct (I2 x (or_introl eq_refl)) as (_ & ef & em & eb & _ & _ & _ & _ & _ & _ & _ & Hv).
    specialize (Hall x (or_introl eq_refl)). rewrite Hv in Hall.
    apply (Qlt_not_le _ _ Hall). apply Hge.
  - destruct (scored_ok_legal _ _ _ (I2 _ Hin)) as (Hl & Hf & _).
    cbn [fst] in Hl, Hf. split; [right |]; auto.
Qed.

Lemma Play_hand_legal_or_zero_witness :
  exists h stats,
    Play deal_AKQJ MaxProdEvaluator = Some (h, stats)
    /\ (h = Hand_zero \/ (lanes_of deal_AKQJ h /\ foul_free h))
    /\ ((forall f m b, (bestEV_init <= MaxProdEvaluator deal_AKQJ f m b)%Q) ->
        0 < Hands stats -> lanes_of deal_AKQJ h /\ foul_free h).
Proof. apply Play_hand_legal_or_zero. apply dealb_deal. vm_compute. reflexivity. Defined.

(** X3: the hand returned by [Play] is the last of the scored partitions
    whose score is maximal (the test is [ev >= bestEV]), provided that
    score is at least -9999999.9; when every score is below it, the zero
    hand is returned.  [Hands] counts the scored partitions, each of
    which is a legal hand scored on its three lane ranks. *)
Theorem Play_selects_last_maximum (c : list Card) (he : HandEvaluator) :
  deal c ->
  exists h stats l,
    Play c he = Some (h, stats)
    /\ Play_scored c he = Some l
    /\ Hands stats = Z.of_nat (length l)
    /\ Forall (scored_ok (he c) c) l
    /\ ((h = Hand_zero /\ forall x, In x l -> (snd x < bestEV_init)%Q)
        \/ exists pre e post,
             l = pre ++ (h, e) :: post
             /\ (bestEV_init <= e)%Q
             /\ (forall x, In x pre -> (snd x <= e)%Q)
             /\ (forall x, In x post -> (snd x < e)%Q)).
Proof.
  intros Hdeal.
  destruct (Play_gen_inv true c he Hdeal) as (st & Hst & Hinv).
  exists (ps_best st), (ps_stats st), (rev (ps_scored st)).
  split; [exact (Play_of_gen true c he st Hst) |].
  split; [unfold Play_scored; rewrite Hst; reflexivity |].
  destruct Hinv as (I1 & I2 & I3 & _).
  split; [rewrite length_rev; exact I3 |].
  split.
  { apply List.Forall_forall. intros x Hx. rewrite List.Forall_forall in I2.
    apply I2. apply in_rev. exact Hx. }
  destruct (select_spec (rev (ps_scored st))) as (Hinit & _ & Hcase).
  rewrite <- I1 in *. cbn [snd] in *.
  destruct Hcase as [[Hz Hall] | (pre & post & Hl & Hpre & Hpost)].
  - left. injection Hz as Hz _. auto.
  - right. exists pre, (ps_bestEV st), post. auto.
Qed.

Lemma Play_selects_last_maximum_witness :
  exists h stats l,
    Play deal_AKQJ MaxProdEvaluator = Some (h, stats)
    /\ Play_scored deal_AKQJ MaxProdEvaluator = Some l
    /\ Hands stats = Z.of_nat (length l)
    /\ Forall (scored_ok (MaxProdEvaluator deal_AKQJ) deal_AKQJ) l
    /\ ((h = Hand_zero /\ forall x, In x l -> (snd x < bestEV_init)%Q)
        \/ exists pre e post,
             l = pre ++ (h, e) :: post
             /\ (bestEV_init <= e)%Q
             /\ (forall x, In x pre -> (snd x <= e)%Q)
             /\ (forall x, In x post -> (snd x < e)%Q)).
Proof. apply Play_selects_last_maximum. apply dealb_deal. vm_compute. reflexivity. Defined.

(** X4: for a scorer that is monotone non-decreasing in each lane rank,
    [Play] with the dominance filter and [Play] without it return hands
    of the same score (both the zero hand when no score reaches
    -9999999.9).  The two hands themselves need not be equal. *)
Theorem dominance_filter_keeps_best_score (c : list Card) (he : HandEvaluator) :
  monotone_scorer (he c) -> deal c ->
  exists hf sf hu su,
    Play c he = Some (hf, sf)
    /\ Play_unfiltered c he = Some (hu, su)
    /\ ((hf = Hand_zero /\ hu = Hand_zero)
        \/ exists vf vu,
             hand_value (he c) hf = Some vf /\ hand_value (he c) hu = Some vu
             /\ (vf == vu)%Q
             /\ lanes_of c hf /\ foul_free hf /\ lanes_of c hu /\ foul_free hu).
Proof.
  intros Hmono Hdeal.
  destruct (Play_gen_rel c he Hmono Hdeal) as (stf & stu & Hf & Hu & If & Iu & R1 & R2).
  exists (ps_best stf), (ps_stats stf), (ps_best stu), (ps_stats stu).
  split; [exact (Play_of_gen true c he stf Hf) |].
  split; [exact (Play_of_gen false c he stu Hu) |].
  pose proof If as (_ & F2 & _). pose proof Iu as (_ & U2 & _).
  rewrite List.Forall_forall in F2, U2.
  destruct (play_inv_best _ _ _ If) as [[Zf Af] | (Hinf & Hif & Hmf)];
    destruct (play_inv_best _ _ _ Iu) as [[Zu Au] | (Hinu & Hiu & Hmu)].
  - left. auto.
  - exfalso. destruct (R2 _ Hinu) as (y & Hy & Hle). cbn [snd] in Hle.
    apply (Qlt_not_le _ _ (Af y Hy)). eapply Qle_trans; eassumption.
  - exfalso. apply R1 in Hinf. apply Au in Hinf. cbn [snd] in Hinf.
    apply (Qlt_not_le _ _ Hinf). exact Hif.
  - right. exists (ps_bestEV stf), (ps_bestEV stu).
    destruct (scored_ok_legal _ _ _ (F2 _ Hinf)) as (Lf & FFf & Vf).
    destruct (scored_ok_legal _ _ _ (U2 _ Hinu)) as (Lu & FFu & Vu).
    cbn [fst snd] in *.
    split; [exact Vf |]. split; [exact Vu |].
    split; [| auto].
    apply Qle_antisym.
    + apply R1 in Hinf. apply Hmu in Hinf. exact Hinf.
    + destruct (R2 _ Hinu) as (y & Hy & Hle). cbn [snd] in Hle.
      eapply Qle_trans; [exact Hle | apply Hmf, Hy].
Qed.
